(** * build.py: the build dispatcher of anapo

    A shallow embedding of [build.py].  The script prints status lines,
    spawns [nix-shell] and [nix-build] through [subprocess.check_call] and
    stops at the first child that exits non-zero.  Its effects are modelled
    by a log of events threaded through a small error monad; the exit
    statuses of the children come from an environment. *)

From Stdlib Require Import String Ascii List ZArith Bool Lia.
Import ListNotations.
Open Scope string_scope.

(** ** Effects *)

Inductive stream := stdout | stderr.

(** What the outside world sees of one run, in order. *)
Inductive event :=
| Write (f : stream) (text : string)
| CheckCall (args : list string) (returncode : Z).

(** Python exceptions that can leave the script. *)
Inductive exn :=
| CalledProcessError (returncode : Z) (cmd : list string)
| SystemExit (code : Z).

(** The exit status of a child, given everything that happened before it
    was spawned and its argument list. *)
Definition environment := list event -> list string -> Z.

Definition M (A : Type) : Type :=
  environment -> list event -> list event * (exn + A).

Definition ret {A} (a : A) : M A := fun _ log => (log, inr a).

Definition bind {A B} (m : M A) (k : A -> M B) : M B :=
  fun env log =>
    match m env log with
    | (log', inr a) => k a env log'
    | (log', inl e) => (log', inl e)
    end.

Definition raise {A} (e : exn) : M A := fun _ log => (log, inl e).

Notation "m ;; k" := (bind m (fun _ => k))
  (at level 61, right associativity).

Definition nl : string := String (ascii_of_nat 10) EmptyString.

Definition write (f : stream) (text : string) : M unit :=
  fun _ log => ((log ++ [Write f text])%list, inr tt).

(** [print(s)] *)
Definition print (s : string) : M unit := write stdout (s ++ nl).

(** [subprocess.check_call(args)]: run the child, wait for it, and raise
    [CalledProcessError] when its return code is not zero. *)
Definition check_call (args : list string) : M unit :=
  fun env log =>
    let returncode := env log args in
    ((log ++ [CheckCall args returncode])%list,
     if (returncode =? 0)%Z then inr tt
     else inl (CalledProcessError returncode args)).

(** [for x in xs: body(x)] *)
Fixpoint for_each {A} (xs : list A) (body : A -> M unit) : M unit :=
  match xs with
  | [] => ret tt
  | x :: xs' => body x ;; for_each xs' body
  end.

(** ** The functions of build.py *)

Definition using_label (ghcjs : bool) : string :=
  if ghcjs then "using GHCjs." else "using GHC.".

Definition run (project : string) (ghcjs : bool) (cmd : string) : M unit :=
  check_call
    ["nix-shell"; "build.nix"; "-A"; project ++ ".env";
     "--arg"; "ghcjs"; if ghcjs then "true" else "false";
     "--run"; "cd " ++ project ++ " && runhaskell Setup.hs " ++ cmd].

Definition configure (project : string) (ghcjs : bool) : M unit :=
  print ("### Configuring project " ++ project ++ ", " ++ using_label ghcjs) ;;
  run project ghcjs ("configure" ++ (if ghcjs then " --ghcjs" else "")).

Definition build (project : string) (ghcjs : bool) : M unit :=
  print ("### Configuring project " ++ project ++ ", " ++ using_label ghcjs) ;;
  run project ghcjs "build".

Definition repl (project : string) (ghcjs : bool) : M unit :=
  print ("### REPLing project " ++ project ++ ", " ++ using_label ghcjs) ;;
  run project ghcjs "repl --ghc-options='-fobject-code -O0'".

Definition build_nix (project : string) (ghcjs : bool) : M unit :=
  print ("### Building project " ++ project ++ " (nix), " ++ using_label ghcjs) ;;
  check_call
    ["nix-build"; "build.nix"; "-A"; project;
     "--arg"; "ghcjs"; if ghcjs then "true" else "false"].

(** The namespace returned by [parser.parse_args()]. *)
Record Namespace := {
  ns_ghc : bool;
  ns_configure : bool;
  ns_repl : bool;
  ns_project : option string   (* [None] when PROJECT is absent *)
}.

(** Truth value of [args.project]: [None] and the empty string are false. *)
Definition truthy (v : option string) : bool :=
  match v with
  | None => false
  | Some s => negb (s =? "")
  end.

Definition projects : list string :=
  ["anapo"; "anapo-test-app"; "js-framework-benchmark"].

(** The statements after [args = parser.parse_args()]. *)
Definition dispatch (args : Namespace) : M unit :=
  let project := match ns_project args with Some p => p | None => "" end in
  if truthy (ns_project args) then
    if ns_configure args then
      configure project (negb (ns_ghc args))
    else if ns_repl args then
      configure project false ;;
      repl project false
    else
      configure project (negb (ns_ghc args)) ;;
      build project (negb (ns_ghc args))
  else
    for_each [true; false] (fun ghcjs =>
      for_each projects (fun project =>
        build_nix project ghcjs)).

(** A run starts with an empty log. *)
Definition exec {A} (m : M A) (env : environment) : list event * (exn + A) :=
  m env [].

Definition trace {A} (m : M A) (env : environment) : list event :=
  fst (exec m env).

(** Exit status of the interpreter: 0 when the script runs to its end, the
    code of a [SystemExit], and 1 for any other uncaught exception. *)
Definition exit_status {A} (r : exn + A) : Z :=
  match r with
  | inr _ => 0
  | inl (SystemExit code) => code
  | inl (CalledProcessError _ _) => 1
  end.

(** Observations on a log. *)
Definition calls (log : list event) : list (list string) :=
  flat_map (fun e => match e with CheckCall a _ => [a] | _ => [] end) log.

Definition returncodes (log : list event) : list Z :=
  flat_map (fun e => match e with CheckCall _ rc => [rc] | _ => [] end) log.

Definition printed (log : list event) : list string :=
  flat_map (fun e => match e with Write stdout s => [s] | _ => [] end) log.

(** ** Argument parsing

    [build.py] declares its command line with [argparse]: the flag [--ghc],
    the mutually exclusive flags [--configure] and [--repl], and one
    optional positional [PROJECT]; [argparse] adds [-h]/[--help].  The model
    below follows CPython 3.11's [ArgumentParser] specialised to these
    declarations (prefix character [-], abbreviations allowed). *)

(** The optional actions of the parser. *)
Inductive action := help | store_ghc | store_configure | store_repl.

Definition action_eqb (a b : action) : bool :=
  match a, b with
  | help, help | store_ghc, store_ghc
  | store_configure, store_configure | store_repl, store_repl => true
  | _, _ => false
  end.

(** [parser._option_string_actions], in insertion order. *)
Definition option_string_actions : list (string * action) :=
  [("-h", help); ("--help", help); ("--ghc", store_ghc);
   ("--configure", store_configure); ("--repl", store_repl)].

Definition lookup_option (s : string) : option action :=
  option_map snd (find (fun p => fst p =? s) option_string_actions).

(** [action = parser.add_mutually_exclusive_group()] and its two members. *)
Definition mutually_exclusive_group : list action :=
  [store_configure; store_repl].

(** [action_conflicts]: every other member of the action's group. *)
Definition action_conflicts (a : action) : list action :=
  if existsb (action_eqb a) mutually_exclusive_group
  then filter (fun b => negb (action_eqb a b)) mutually_exclusive_group
  else [].

(** [s.split('=', 1)] when ['=' in s]. *)
Fixpoint split_eq (s : string) : option (string * string) :=
  match s with
  | EmptyString => None
  | String c rest =>
      if Ascii.eqb c "="%char then Some (EmptyString, rest)
      else match split_eq rest with
           | Some (l, r) => Some (String c l, r)
           | None => None
           end
  end.

Fixpoint contains (c : ascii) (s : string) : bool :=
  match s with
  | EmptyString => false
  | String d rest => Ascii.eqb c d || contains c rest
  end.

(** Why the parser stops with a usage error. *)
Inductive argument_error :=
| NotAllowedWith (a conflict : action)
| IgnoredExplicitArgument (a : action) (explicit_arg : string)
| AmbiguousOption (arg_string : string) (matches : list string)
| UnrecognizedArguments (argv : list string).

(** What [_parse_optional] says about one argument string. *)
Inductive parsed_optional :=
| NotOptional
| OptionTuple (a : option action) (option_string : string)
              (explicit_arg : option string)
| Ambiguous (matches : list string).

(** [_get_option_tuples], for an argument of length at least two that
    starts with [-]. *)
Definition get_option_tuples (arg_string : string)
  : list (action * string * option string) :=
  match arg_string with
  | String "-" (String "-" _) =>
      let '(option_prefix, explicit_arg) :=
        match split_eq arg_string with
        | Some (l, r) => (l, Some r)
        | None => (arg_string, None)
        end in
      flat_map (fun p : string * action =>
                  if prefix option_prefix (fst p)
                  then [(snd p, fst p, explicit_arg)] else [])
               option_string_actions
  | String "-" (String c short_explicit_arg) =>
      flat_map (fun p : string * action =>
                  if fst p =? String "-" (String c EmptyString)
                  then [(snd p, fst p, Some short_explicit_arg)]
                  else if prefix arg_string (fst p)
                  then [(snd p, fst p, None)] else [])
               option_string_actions
  | _ => []
  end.

Section Argparse.

(** Four library functions are left abstract: the regular expression that
    recognises negative numbers ([_negative_number_matcher]), Python's
    [repr] of a string, used in one error message, and the texts of
    [parser.format_usage()] and [parser.format_help()] for a program name,
    which [argparse] wraps to the width of the terminal. *)
Variable negative_number_matcher : string -> bool.
Variable repr : string -> string.
Variable format_usage : string -> string.
Variable format_help : string -> string.

Definition parse_optional (arg_string : string) : parsed_optional :=
  match arg_string with
  | EmptyString => NotOptional
  | String c _ =>
      if negb (Ascii.eqb c "-"%char) then NotOptional
      else
        match lookup_option arg_string with
        | Some a => OptionTuple (Some a) arg_string None
        | None =>
            if (String.length arg_string =? 1)%nat then NotOptional
            else
              match
                match split_eq arg_string with
                | Some (option_string, explicit_arg) =>
                    match lookup_option option_string with
                    | Some a => Some (a, option_string, explicit_arg)
                    | None => None
                    end
                | None => None
                end
              with
              | Some (a, option_string, explicit_arg) =>
                  OptionTuple (Some a) option_string (Some explicit_arg)
              | None =>
                  match get_option_tuples arg_string with
                  | [(a, option_string, explicit_arg)] =>
                      OptionTuple (Some a) option_string explicit_arg
                  | (_ :: _ :: _) as option_tuples =>
                      Ambiguous (map (fun t => snd (fst t)) option_tuples)
                  | [] =>
                      if negative_number_matcher arg_string then NotOptional
                      else if contains " "%char arg_string then NotOptional
                      else OptionTuple None arg_string None
                  end
              end
        end
  end.

(** One entry of [arg_strings_pattern]: ['A'], ['-'] or ['O'], with the
    argument string and, for ['O'], its entry of [option_string_indices]. *)
Inductive pattern_entry :=
| A (arg_string : string)
| DashDash
| O (arg_string : string) (a : option action) (option_string : string)
    (explicit_arg : option string).

(** The first loop of [_parse_known_args]: everything after [--] is an
    argument; an ambiguous abbreviation ends the parse at once. *)
Fixpoint arg_strings_pattern (arg_strings : list string)
  : argument_error + list pattern_entry :=
  match arg_strings with
  | [] => inr []
  | arg_string :: rest =>
      if arg_string =? "--" then inr (DashDash :: map A rest)
      else
        match parse_optional arg_string with
        | Ambiguous matches => inl (AmbiguousOption arg_string matches)
        | NotOptional =>
            match arg_strings_pattern rest with
            | inl e => inl e
            | inr p => inr (A arg_string :: p)
            end
        | OptionTuple a option_string explicit_arg =>
            match arg_strings_pattern rest with
            | inl e => inl e
            | inr p => inr (O arg_string a option_string explicit_arg :: p)
            end
        end
  end.

(** The state of the second loop. *)
Record parser_state := {
  namespace : Namespace;
  seen_actions : list action;
  seen_non_default_actions : list action;
  positionals : bool;           (* is [project] still waiting for a value *)
  extras : list string
}.

(** How [parse_args] leaves the script without returning. *)
Inductive parser_exit :=
| ExitHelp                      (* [print_help(); exit()] *)
| ExitError (e : argument_error). (* [parser.error(...)], status 2 *)

Definition set_flag (a : action) (ns : Namespace) : Namespace :=
  match a with
  | help => ns
  | store_ghc =>
      {| ns_ghc := true; ns_configure := ns_configure ns;
         ns_repl := ns_repl ns; ns_project := ns_project ns |}
  | store_configure =>
      {| ns_ghc := ns_ghc ns; ns_configure := true;
         ns_repl := ns_repl ns; ns_project := ns_project ns |}
  | store_repl =>
      {| ns_ghc := ns_ghc ns; ns_configure := ns_configure ns;
         ns_repl := true; ns_project := ns_project ns |}
  end.

(** [take_action] for an optional: record it as seen, refuse it when a
    conflicting action was seen before, otherwise call it. *)
Definition take_action (a : action) (st : parser_state)
  : parser_state * option parser_exit :=
  let st' :=
    {| namespace := namespace st;
       seen_actions := a :: seen_actions st;
       seen_non_default_actions := a :: seen_non_default_actions st;
       positionals := positionals st;
       extras := extras st |} in
  match
    find (fun c => existsb (action_eqb c) (seen_non_default_actions st'))
         (action_conflicts a)
  with
  | Some c => (st', Some (ExitError (NotAllowedWith a c)))
  | None =>
      match a with
      | help => (st', Some ExitHelp)
      | _ =>
          ({| namespace := set_flag a (namespace st');
              seen_actions := seen_actions st';
              seen_non_default_actions := seen_non_default_actions st';
              positionals := positionals st';
              extras := extras st' |}, None)
      end
  end.

Fixpoint take_actions (action_tuples : list action) (st : parser_state)
  : parser_state * option parser_exit :=
  match action_tuples with
  | [] => (st, None)
  | a :: rest =>
      match take_action a st with
      | (st', None) => take_actions rest st'
      | stop => stop
      end
  end.

(** The loop of [consume_optional] that reads more single-dash options out
    of an explicit argument, as in [-hh]. *)
Fixpoint short_cluster (a : action) (explicit_arg : string)
  : argument_error + list action :=
  match explicit_arg with
  | EmptyString => inr []
  | String c rest =>
      match lookup_option (String "-" (String c EmptyString)) with
      | Some a' =>
          match short_cluster a' rest with
          | inl e => inl e
          | inr l => inr (a' :: l)
          end
      | None => inl (IgnoredExplicitArgument a explicit_arg)
      end
  end.

Definition single_dash (option_string : string) : bool :=
  match option_string with
  | String _ (String c _) => negb (Ascii.eqb c "-"%char)
  | _ => false
  end.

(** [consume_optional].  Every optional of this parser takes no argument. *)
Definition consume_optional (arg_string : string) (a : option action)
    (option_string : string) (explicit_arg : option string)
    (st : parser_state) : parser_state * option parser_exit :=
  match a with
  | None =>
      ({| namespace := namespace st;
          seen_actions := seen_actions st;
          seen_non_default_actions := seen_non_default_actions st;
          positionals := positionals st;
          extras := (extras st ++ [arg_string])%list |}, None)
  | Some a =>
      match explicit_arg with
      | None => take_action a st
      | Some explicit_arg =>
          if single_dash option_string && negb (explicit_arg =? "") then
            match short_cluster a explicit_arg with
            | inl e => (st, Some (ExitError e))
            | inr more => take_actions (a :: more) st
            end
          else (st, Some (ExitError (IgnoredExplicitArgument a explicit_arg)))
      end
  end.

(** [consume_positionals] on one argument: [project] takes the first one,
    later ones are extras. *)
Definition consume_positional (arg_string : string) (st : parser_state)
  : parser_state :=
  if positionals st then
    {| namespace :=
         {| ns_ghc := ns_ghc (namespace st);
            ns_configure := ns_configure (namespace st);
            ns_repl := ns_repl (namespace st);
            ns_project := Some arg_string |};
       seen_actions := seen_actions st;
       seen_non_default_actions := seen_non_default_actions st;
       positionals := false;
       extras := extras st |}
  else
    {| namespace := namespace st;
       seen_actions := seen_actions st;
       seen_non_default_actions := seen_non_default_actions st;
       positionals := positionals st;
       extras := (extras st ++ [arg_string])%list |}.

(** An argument for which no positional is left, or an option that the
    parser does not know, goes to [extras]. *)
Definition add_extra (arg_string : string) (st : parser_state)
  : parser_state :=
  {| namespace := namespace st;
     seen_actions := seen_actions st;
     seen_non_default_actions := seen_non_default_actions st;
     positionals := positionals st;
     extras := (extras st ++ [arg_string])%list |}.

(** The second loop of [_parse_known_args], read from left to right: with
    a single positional of [nargs="?"] the alternation of
    [consume_positionals] and [consume_optional] visits the arguments in
    order.  The pattern of [project] is [-*A?-*]: a [--] is matched with
    [project], and removed from its value, when [project] is still to be
    filled or was filled by the argument just before ([taken] says so);
    any other [--] is left over and ends up in [extras]. *)
Fixpoint consume (taken : bool) (entries : list pattern_entry)
    (st : parser_state) : parser_state * option parser_exit :=
  match entries with
  | [] => (st, None)
  | A arg_string :: rest =>
      consume (positionals st) rest (consume_positional arg_string st)
  | DashDash :: rest =>
      if positionals st || taken then consume false rest st
      else consume false rest (add_extra "--" st)
  | O arg_string a option_string explicit_arg :: rest =>
      match consume_optional arg_string a option_string explicit_arg st with
      | (st', None) => consume false rest st'
      | stop => stop
      end
  end.

(** The namespace of defaults. *)
Definition initial_state : parser_state :=
  {| namespace :=
       {| ns_ghc := false; ns_configure := false; ns_repl := false;
          ns_project := None |};
     seen_actions := [];
     seen_non_default_actions := [];
     positionals := true;
     extras := [] |}.

(** The parser state when [_parse_known_args] returns or exits; [None]
    when the first loop already failed. *)
Definition parse_known_args (arg_strings : list string)
  : argument_error + parser_state * option parser_exit :=
  match arg_strings_pattern arg_strings with
  | inl e => inl e
  | inr entries => inr (consume false entries initial_state)
  end.

Inductive parse_result :=
| Parsed (args : Namespace)
| Help
| Error (e : argument_error).

Definition parse_args (arg_strings : list string) : parse_result :=
  match parse_known_args arg_strings with
  | inl e => Error e
  | inr (_, Some ExitHelp) => Help
  | inr (_, Some (ExitError e)) => Error e
  | inr (st, None) =>
      match extras st with
      | [] => Parsed (namespace st)
      | argv => Error (UnrecognizedArguments argv)
      end
  end.


(** Messages. *)
Definition action_name (a : action) : string :=
  match a with
  | help => "-h/--help"
  | store_ghc => "--ghc"
  | store_configure => "--configure"
  | store_repl => "--repl"
  end.

Definition error_message (e : argument_error) : string :=
  match e with
  | NotAllowedWith a c =>
      "argument " ++ action_name a ++ ": not allowed with argument "
        ++ action_name c
  | IgnoredExplicitArgument a explicit_arg =>
      "argument " ++ action_name a ++ ": ignored explicit argument "
        ++ repr explicit_arg
  | AmbiguousOption arg_string matches =>
      "ambiguous option: " ++ arg_string ++ " could match "
        ++ String.concat ", " matches
  | UnrecognizedArguments argv =>
      "unrecognized arguments: " ++ String.concat " " argv
  end.

(** The whole script: parse [sys.argv[1:]], then dispatch. *)
Definition main (prog : string) (argv : list string) : M unit :=
  match parse_args argv with
  | Parsed args => dispatch args
  | Help =>
      write stdout (format_help prog) ;;
      raise (SystemExit 0)
  | Error e =>
      write stderr (format_usage prog) ;;
      write stderr (prog ++ ": error: " ++ error_message e ++ nl) ;;
      raise (SystemExit 2)
  end.

End Argparse.

(** ** Steps

    Every function of the script prints one status line and then spawns one
    child.  A list of such steps, run until the first child that fails,
    describes what a whole run does. *)

Record step := { status_line : string; command : list string }.

Fixpoint run_steps (env : environment) (log : list event) (ss : list step)
  : list event * (exn + unit) :=
  match ss with
  | [] => (log, inr tt)
  | s :: rest =>
      let log1 := (log ++ [Write stdout (status_line s ++ nl)])%list in
      let returncode := env log1 (command s) in
      let log2 := (log1 ++ [CheckCall (command s) returncode])%list in
      if (returncode =? 0)%Z then run_steps env log2 rest
      else (log2, inl (CalledProcessError returncode (command s)))
  end.

(** [m] behaves as the steps [ss], whatever the children answer. *)
Definition performs (m : M unit) (ss : list step) : Prop :=
  forall env log, m env log = run_steps env log ss.

(** The events of a step whose child exits with [returncode]. *)
Definition step_events (s : step) (returncode : Z) : list event :=
  [Write stdout (status_line s ++ nl); CheckCall (command s) returncode].

Definition ok_events (ss : list step) : list event :=
  flat_map (fun s => step_events s 0) ss.

(** The argument lists and status lines of the script, by name. *)
Definition nix_shell (project : string) (ghcjs : bool) (cmd : string)
  : list string :=
  ["nix-shell"; "build.nix"; "-A"; project ++ ".env";
   "--arg"; "ghcjs"; if ghcjs then "true" else "false";
   "--run"; "cd " ++ project ++ " && runhaskell Setup.hs " ++ cmd].

Definition nix_build (project : string) (ghcjs : bool) : list string :=
  ["nix-build"; "build.nix"; "-A"; project;
   "--arg"; "ghcjs"; if ghcjs then "true" else "false"].

Definition configure_step (project : string) (ghcjs : bool) : step :=
  {| status_line :=
       "### Configuring project " ++ project ++ ", " ++ using_label ghcjs;
     command :=
       nix_shell project ghcjs
         ("configure" ++ (if ghcjs then " --ghcjs" else "")) |}.

Definition build_step (project : string) (ghcjs : bool) : step :=
  {| status_line :=
       "### Configuring project " ++ project ++ ", " ++ using_label ghcjs;
     command := nix_shell project ghcjs "build" |}.

Definition repl_step (project : string) (ghcjs : bool) : step :=
  {| status_line :=
       "### REPLing project " ++ project ++ ", " ++ using_label ghcjs;
     command :=
       nix_shell project ghcjs "repl --ghc-options='-fobject-code -O0'" |}.

Definition build_nix_step (project : string) (ghcjs : bool) : step :=
  {| status_line :=
       "### Building project " ++ project ++ " (nix), " ++ using_label ghcjs;
     command := nix_build project ghcjs |}.

(** The steps of a run, from the parsed arguments alone. *)
Definition plan (args : Namespace) : list step :=
  match ns_project args with
  | Some project =>
      if project =? "" then
        flat_map (fun ghcjs => map (fun p => build_nix_step p ghcjs) projects)
                 [true; false]
      else if ns_configure args then
        [configure_step project (negb (ns_ghc args))]
      else if ns_repl args then
        [configure_step project false; repl_step project false]
      else
        [configure_step project (negb (ns_ghc args));
         build_step project (negb (ns_ghc args))]
  | None =>
      flat_map (fun ghcjs => map (fun p => build_nix_step p ghcjs) projects)
               [true; false]
  end.

(** All the children of a log exited with status 0. *)
Definition all_succeeded (log : list event) : Prop :=
  Forall (fun returncode => returncode = 0%Z) (returncodes log).

(** Sample environments: every child exits with the same status, or the
    [n]-th child of the run (counting from 1) exits with [returncode] and
    the others with 0. *)
Definition always (returncode : Z) : environment := fun _ _ => returncode.

Definition fails_at (n : nat) (returncode : Z) : environment :=
  fun log _ =>
    if (S (List.length (calls log)) =? n)%nat then returncode else 0%Z.

(** An environment in which the children chosen by [p] exit with
    [returncode] and the others with 0. *)
Definition fails_when (p : list string -> bool) (returncode : Z)
  : environment :=
  fun _ args => if p args then returncode else 0%Z.

(** Sample usage and help texts: what [argparse] prints for a program
    name short enough for everything to fit on the lines of the terminal. *)
Definition one_line_usage (prog : string) : string :=
  "usage: " ++ prog ++ " [-h] [--ghc] [--configure | --repl] [PROJECT]" ++ nl.

Definition short_help (prog : string) : string :=
  one_line_usage prog ++ nl
  ++ "positional arguments:" ++ nl
  ++ "  PROJECT" ++ nl ++ nl
  ++ "options:" ++ nl
  ++ "  -h, --help   show this help message and exit" ++ nl
  ++ "  --ghc        Use GHC rather than GHCjs" ++ nl
  ++ "  --configure  Only configure" ++ nl
  ++ "  --repl       Run repl" ++ nl.

(** Sample instances of the abstract library functions, for arguments
    made of printable ASCII characters without quotes or backslashes (and,
    for the negative numbers, a newline at the end, which [$] lets
    through). *)
Definition is_digit (c : ascii) : bool :=
  (48 <=? nat_of_ascii c)%nat && (nat_of_ascii c <=? 57)%nat.

Fixpoint digits (s : string) : bool :=
  match s with
  | EmptyString => true
  | String c rest => is_digit c && digits rest
  end.

Fixpoint skip_digits (s : string) : string :=
  match s with
  | String c rest => if is_digit c then skip_digits rest else s
  | EmptyString => s
  end.

Fixpoint chomp (s : string) : string :=
  match s with
  | EmptyString => s
  | String c rest => if rest =? nl then String c EmptyString
                     else String c (chomp rest)
  end.

Definition ascii_negative_number (s : string) : bool :=
  match s with
  | String "-" rest =>
      let rest := chomp rest in
      (negb (rest =? "") && digits rest)
      || match skip_digits rest with
         | String "." frac => negb (frac =? "") && digits frac
         | _ => false
         end
  | _ => false
  end.

Definition quoted (s : string) : string := "'" ++ s ++ "'".

(** The six [nix-build] argument lists of the mode without a project,
    in the order of the two nested loops. *)
Definition build_all_calls : list (list string) :=
  [ ["nix-build"; "build.nix"; "-A"; "anapo"; "--arg"; "ghcjs"; "true"];
    ["nix-build"; "build.nix"; "-A"; "anapo-test-app";
     "--arg"; "ghcjs"; "true"];
    ["nix-build"; "build.nix"; "-A"; "js-framework-benchmark";
     "--arg"; "ghcjs"; "true"];
    ["nix-build"; "build.nix"; "-A"; "anapo"; "--arg"; "ghcjs"; "false"];
    ["nix-build"; "build.nix"; "-A"; "anapo-test-app";
     "--arg"; "ghcjs"; "false"];
    ["nix-build"; "build.nix"; "-A"; "js-framework-benchmark";
     "--arg"; "ghcjs"; "false"] ].

(** The program a call runs: the head of its argument list. *)
Definition program (args : list string) : option string := hd_error args.

(** The arguments in front of the first [--]: the only ones that can be
    options. *)
Fixpoint options_part (arg_strings : list string) : list string :=
  match arg_strings with
  | [] => []
  | arg_string :: rest =>
      if arg_string =? "--" then [] else arg_string :: options_part rest
  end.

(** The command line gives the optional [a]: one of its arguments, in
    front of any [--], is read as an option string of [a], in full or
    abbreviated. *)
Definition gives (negative_number_matcher : string -> bool) (a : action)
    (arg_strings : list string) : Prop :=
  exists arg_string option_string explicit_arg,
    In arg_string (options_part arg_strings) /\
    parse_optional negative_number_matcher arg_string
      = OptionTuple (Some a) option_string explicit_arg.

(** A run of steps either goes through all of them, every child exiting 0,
    or stops right after the first child that does not. *)
Inductive run_shape (log : list event) (ss : list step)
  : list event * (exn + unit) -> Prop :=
| AllDone : run_shape log ss ((log ++ ok_events ss)%list, inr tt)
| Stopped pre s post returncode :
    ss = (pre ++ s :: post)%list ->
    returncode <> 0%Z ->
    run_shape log ss
      ((log ++ ok_events pre ++ step_events s returncode)%list,
       inl (CalledProcessError returncode (command s))).




(** [s.endswith(suffix)] *)
Fixpoint ends_with (suffix s : string) : bool :=
  (s =? suffix)
  || match s with
     | EmptyString => false
     | String _ rest => ends_with suffix rest
     end.

(** The events of a child announced by [line], spawned with [call] and
    exiting with [returncode]. *)
Definition announced (x : string * list string * Z) : list event :=
  [Write stdout (fst (fst x)); CheckCall (snd (fst x)) (snd x)].

(** Nothing of a log went to standard error. *)
Definition quiet (log : list event) : Prop :=
  forall text, ~ In (Write stderr text) log.

(** The attribute of the namespace that an action stores; [help] stores
    nothing. *)
Definition flag (a : action) (ns : Namespace) : bool :=
  match a with
  | help => false
  | store_ghc => ns_ghc ns
  | store_configure => ns_configure ns
  | store_repl => ns_repl ns
  end.

(** A flag of the namespace is set exactly when its action was seen. *)
Definition flags_inv (st : parser_state) : Prop :=
  forall a, flag a (namespace st) = true <->
            (a <> help /\ In a (seen_actions st)).

(** The arguments of a command line that are read as positionals: those
    that [_parse_optional] does not take for options, and everything after
    the first [--]. *)
Fixpoint positional_args (negative_number_matcher : string -> bool)
    (arg_strings : list string) : list string :=
  match arg_strings with
  | [] => []
  | arg_string :: rest =>
      if arg_string =? "--" then rest
      else
        match parse_optional negative_number_matcher arg_string with
        | NotOptional =>
            arg_string :: positional_args negative_number_matcher rest
        | _ => positional_args negative_number_matcher rest
        end
  end.

(** The arguments of a pattern. *)
Definition pattern_arguments (entries : list pattern_entry) : list string :=
  flat_map (fun entry => match entry with A s => [s] | _ => [] end) entries.

(** The parser state after the positionals [P] have gone by: [project] is
    the first of them and the others are among the extras. *)
Definition positionals_inv (P : list string) (st : parser_state) : Prop :=
  ns_project (namespace st) = hd_error P /\
  positionals st = match P with [] => true | _ => false end /\
  forall p, In p (tl P) -> In p (extras st).

(** ** The parser on sample command lines *)

Example parse_nothing :
  parse_args ascii_negative_number []
  = Parsed {| ns_ghc := false; ns_configure := false; ns_repl := false;
              ns_project := None |}.
Proof. reflexivity. Qed.

Example parse_abbreviation :
  parse_args ascii_negative_number ["--conf"; "anapo"; "--gh"]
  = Parsed {| ns_ghc := true; ns_configure := true; ns_repl := false;
              ns_project := Some "anapo" |}.
Proof. reflexivity. Qed.

Example parse_after_dashdash :
  parse_args ascii_negative_number ["--"; "--repl"]
  = Parsed {| ns_ghc := false; ns_configure := false; ns_repl := false;
              ns_project := Some "--repl" |}.
Proof. reflexivity. Qed.

Example parse_dashdash_after_project :
  parse_args ascii_negative_number ["anapo"; "--"]
  = Parsed {| ns_ghc := false; ns_configure := false; ns_repl := false;
              ns_project := Some "anapo" |} /\
  parse_args ascii_negative_number ["--repl"; "anapo"; "--"]
  = Parsed {| ns_ghc := false; ns_configure := false; ns_repl := true;
              ns_project := Some "anapo" |} /\
  parse_args ascii_negative_number ["--ghc"; "--"]
  = Parsed {| ns_ghc := true; ns_configure := false; ns_repl := false;
              ns_project := None |}.
Proof. repeat split. Qed.

Example parse_dashdash_left_over :
  parse_args ascii_negative_number ["anapo"; "--repl"; "--"]
  = Error (UnrecognizedArguments ["--"]) /\
  parse_args ascii_negative_number ["anapo"; "x"; "--"; "y"]
  = Error (UnrecognizedArguments ["x"; "--"; "y"]) /\
  parse_args ascii_negative_number ["anapo"; "--"; "y"]
  = Error (UnrecognizedArguments ["y"]).
Proof. repeat split. Qed.

Example parse_negative_number :
  parse_args ascii_negative_number ["-1"]
  = Parsed {| ns_ghc := false; ns_configure := false; ns_repl := false;
              ns_project := Some "-1" |}.
Proof. reflexivity. Qed.

Example parse_two_projects :
  parse_args ascii_negative_number ["anapo"; "anapo-test-app"]
  = Error (UnrecognizedArguments ["anapo-test-app"]).
Proof. reflexivity. Qed.

Example parse_unknown_option :
  parse_args ascii_negative_number ["-x"; "anapo"]
  = Error (UnrecognizedArguments ["-x"]).
Proof. reflexivity. Qed.

Example parse_ambiguous :
  parse_args ascii_negative_number ["--=x"]
  = Error (AmbiguousOption "--=x" ["--help"; "--ghc"; "--configure"; "--repl"]).
Proof. reflexivity. Qed.

Example parse_explicit_argument :
  parse_args ascii_negative_number ["--ghc=1"]
  = Error (IgnoredExplicitArgument store_ghc "1").
Proof. reflexivity. Qed.

Example parse_help_cluster :
  parse_args ascii_negative_number ["-hh"] = Help /\
  parse_args ascii_negative_number ["-hx"]
  = Error (IgnoredExplicitArgument help "x").
Proof. split; reflexivity. Qed.

Example parse_conflict :
  parse_args ascii_negative_number ["--repl"; "--configure"; "-h"]
  = Error (NotAllowedWith store_configure store_repl).
Proof. reflexivity. Qed.

Example parse_help_first :
  parse_args ascii_negative_number ["-h"; "--configure"; "--repl"] = Help.
Proof. reflexivity. Qed.

Example main_conflict :
  exec (main ascii_negative_number quoted one_line_usage short_help
             "build.py" ["--configure"; "--repl"])
       (always 0)
  = ([Write stderr
        ("usage: build.py [-h] [--ghc] [--configure | --repl] [PROJECT]" ++ nl);
      Write stderr
        ("build.py: error: argument --repl: not allowed with argument --configure"
           ++ nl)],
     inl (SystemExit 2)).
Proof. reflexivity. Qed.

(** ** Lemmas on steps *)

Lemma run_steps_app env log ss1 ss2 :
  run_steps env log (ss1 ++ ss2)%list =
  match run_steps env log ss1 with
  | (log', inr _) => run_steps env log' ss2
  | (log', inl e) => (log', inl e)
  end.
Proof.
  revert log. induction ss1 as [|s ss1 IH]; intros log; simpl.
  - reflexivity.
  - destruct (_ =? 0)%Z; [apply IH | reflexivity].
Qed.

Lemma performs_ret : performs (ret tt) [].
Proof. intros env log. reflexivity. Qed.

Lemma performs_step line cmd :
  performs (print line ;; check_call cmd)
           [{| status_line := line; command := cmd |}].
Proof.
  intros env log. unfold bind, print, write, check_call. simpl.
  destruct (_ =? 0)%Z; reflexivity.
Qed.

Lemma performs_bind m1 m2 ss1 ss2 :
  performs m1 ss1 -> performs m2 ss2 ->
  performs (m1 ;; m2) (ss1 ++ ss2)%list.
Proof.
  intros H1 H2 env log. unfold bind. rewrite run_steps_app, H1.
  destruct (run_steps env log ss1) as [log' [e|[]]]; [reflexivity | apply H2].
Qed.

Lemma performs_for_each {A} (xs : list A) body (f : A -> list step) :
  (forall x, performs (body x) (f x)) ->
  performs (for_each xs body) (flat_map f xs).
Proof.
  intros H. induction xs as [|x xs IH]; simpl.
  - apply performs_ret.
  - apply performs_bind; [apply H | apply IH].
Qed.

Lemma performs_configure project ghcjs :
  performs (configure project ghcjs) [configure_step project ghcjs].
Proof. apply performs_step. Qed.

Lemma performs_build project ghcjs :
  performs (build project ghcjs) [build_step project ghcjs].
Proof. apply performs_step. Qed.

Lemma performs_repl project ghcjs :
  performs (repl project ghcjs) [repl_step project ghcjs].
Proof. apply performs_step. Qed.

Lemma performs_build_nix project ghcjs :
  performs (build_nix project ghcjs) [build_nix_step project ghcjs].
Proof. apply performs_step. Qed.

Lemma flat_map_singleton {A B} (f : A -> B) (xs : list A) :
  flat_map (fun x => [f x]) xs = map f xs.
Proof. induction xs; simpl; congruence. Qed.

Lemma dispatch_performs args : performs (dispatch args) (plan args).
Proof.
  assert (Hall : performs
            (for_each [true; false] (fun ghcjs =>
               for_each projects (fun project => build_nix project ghcjs)))
            (flat_map (fun ghcjs =>
               map (fun p => build_nix_step p ghcjs) projects) [true; false])).
  { apply performs_for_each. intros ghcjs.
    rewrite <- flat_map_singleton.
    apply performs_for_each. intros p. apply performs_build_nix. }
  destruct args as [g c r [p|]]; unfold dispatch, plan; simpl; [|exact Hall].
  destruct (p =? "") eqn:Ep; simpl; [exact Hall|].
  destruct c; [apply performs_configure|].
  destruct r.
  - apply (performs_bind _ _ [_] [_]);
      [apply performs_configure | apply performs_repl].
  - apply (performs_bind _ _ [_] [_]);
      [apply performs_configure | apply performs_build].
Qed.

Lemma run_steps_shape ss : forall env log,
  run_shape log ss (run_steps env log ss).
Proof.
  induction ss as [|s ss IH]; intros env log; simpl.
  - rewrite <- (app_nil_r log) at 2. apply (AllDone log []).
  - set (log1 := (log ++ [Write stdout (status_line s ++ nl)])%list).
    destruct (env log1 (command s) =? 0)%Z eqn:E.
    + apply Z.eqb_eq in E. rewrite E.
      destruct (IH env (log1 ++ [CheckCall (command s) 0])%list)
        as [|pre s' post rc Hss Hrc].
      * replace ((log1 ++ [CheckCall (command s) 0]) ++ ok_events ss)%list
          with (log ++ ok_events (s :: ss))%list
          by (unfold log1; simpl; rewrite <- !app_assoc; reflexivity).
        apply AllDone.
      * replace ((log1 ++ [CheckCall (command s) 0])
                   ++ ok_events pre ++ step_events s' rc)%list
          with (log ++ ok_events (s :: pre) ++ step_events s' rc)%list
          by (unfold log1; simpl; rewrite <- !app_assoc; reflexivity).
        apply (Stopped log (s :: ss) (s :: pre) s' post rc);
          [simpl; congruence | assumption].
    + apply Z.eqb_neq in E.
      replace (log1 ++ [CheckCall (command s) (env log1 (command s))])%list
        with (log ++ ok_events [] ++
                step_events s (env log1 (command s)))%list
        by (unfold log1; simpl; rewrite <- !app_assoc; reflexivity).
      apply (Stopped log (s :: ss) [] s ss); [reflexivity | assumption].
Qed.

Lemma exec_dispatch_shape args env :
  run_shape [] (plan args) (exec (dispatch args) env).
Proof.
  unfold exec. rewrite dispatch_performs. apply run_steps_shape.
Qed.

(** Observations on the events of steps. *)
Lemma calls_app l1 l2 : calls (l1 ++ l2) = (calls l1 ++ calls l2)%list.
Proof. apply flat_map_app. Qed.

Lemma returncodes_app l1 l2 :
  returncodes (l1 ++ l2) = (returncodes l1 ++ returncodes l2)%list.
Proof. apply flat_map_app. Qed.

Lemma printed_app l1 l2 : printed (l1 ++ l2) = (printed l1 ++ printed l2)%list.
Proof. apply flat_map_app. Qed.

Lemma calls_ok_events ss : calls (ok_events ss) = map command ss.
Proof. induction ss; simpl; congruence. Qed.

Lemma printed_ok_events ss :
  printed (ok_events ss) = map (fun s => status_line s ++ nl) ss.
Proof. induction ss; simpl; congruence. Qed.

Lemma returncodes_ok_events ss :
  returncodes (ok_events ss) = map (fun _ => 0%Z) ss.
Proof. induction ss; simpl; congruence. Qed.

Lemma all_succeeded_ok_events ss : all_succeeded (ok_events ss).
Proof.
  unfold all_succeeded. rewrite returncodes_ok_events.
  apply Forall_forall. intros x Hx. apply in_map_iff in Hx.
  destruct Hx as [_ [<- _]]. reflexivity.
Qed.

Lemma ok_events_no_failure ss c returncode :
  In (CheckCall c returncode) (ok_events ss) -> returncode = 0%Z.
Proof.
  unfold ok_events. rewrite in_flat_map. intros [s [_ H]].
  simpl in H. destruct H as [H|[H|[]]]; [discriminate | congruence].
Qed.

Lemma stopped_not_all_succeeded pre s returncode :
  returncode <> 0%Z ->
  ~ all_succeeded (ok_events pre ++ step_events s returncode).
Proof.
  intros Hrc H. unfold all_succeeded in H.
  rewrite returncodes_app in H. apply Forall_app in H. destruct H as [_ H].
  simpl in H. inversion H. contradiction.
Qed.

(** In a list that ends with [x], an element that does not occur before
    [x] can only be found at the end. *)
Lemma last_position {A} (l1 : list A) x pre y post :
  (l1 ++ [x])%list = (pre ++ y :: post)%list ->
  ~ In y l1 ->
  post = [] /\ x = y /\ l1 = pre.
Proof.
  intros Heq Hnot. destruct post as [|z post'].
  - apply app_inj_tail in Heq. destruct Heq as [-> ->]. auto.
  - exfalso.
    destruct (@exists_last _ (z :: post')) as [q [w Hw]]; [discriminate|].
    rewrite Hw, app_comm_cons, app_assoc in Heq.
    apply app_inj_tail in Heq. destruct Heq as [-> _].
    apply Hnot, in_or_app. right. left. reflexivity.
Qed.

(** What a run that met no failure did, and how far any run got. *)
Lemma succeeded_run args env :
  all_succeeded (trace (dispatch args) env) ->
  exec (dispatch args) env = (ok_events (plan args), inr tt).
Proof.
  unfold trace. intros H.
  destruct (exec_dispatch_shape args env) as [|pre s post rc Hss Hrc].
  - reflexivity.
  - exfalso. simpl in H. revert H. apply stopped_not_all_succeeded, Hrc.
Qed.

Lemma firstn_map_prefix {A B} (f : A -> B) (pre : list A) s post :
  (map f pre ++ [f s])%list =
  firstn (S (List.length pre)) (map f (pre ++ s :: post)).
Proof.
  induction pre as [|x pre IH]; simpl; [reflexivity|].
  f_equal. exact IH.
Qed.

Lemma run_prefix args env :
  exists n,
    calls (trace (dispatch args) env) = firstn n (map command (plan args)) /\
    printed (trace (dispatch args) env) =
      firstn n (map (fun s => status_line s ++ nl) (plan args)).
Proof.
  unfold trace.
  destruct (exec_dispatch_shape args env) as [|pre s post rc Hss Hrc]; simpl.
  - exists (List.length (plan args)).
    rewrite calls_ok_events, printed_ok_events. split.
    + rewrite <- (length_map command (plan args)), firstn_all. reflexivity.
    + rewrite <- (length_map (fun s => status_line s ++ nl) (plan args)),
        firstn_all.
      reflexivity.
  - exists (S (List.length pre)).
    rewrite calls_app, printed_app, calls_ok_events, printed_ok_events, Hss.
    simpl. split.
    + apply (firstn_map_prefix command).
    + apply (firstn_map_prefix (fun s => status_line s ++ nl)).
Qed.

Lemma truthy_nonempty project :
  project <> "" -> truthy (Some project) = true.
Proof.
  intros H. simpl. destruct (project =? "") eqn:E; [|reflexivity].
  apply String.eqb_eq in E. contradiction.
Qed.

Lemma plan_project project g c r :
  project <> "" ->
  plan {| ns_ghc := g; ns_configure := c; ns_repl := r;
          ns_project := Some project |} =
  if c then [configure_step project (negb g)]
  else if r then [configure_step project false; repl_step project false]
  else [configure_step project (negb g); build_step project (negb g)].
Proof.
  intros H. unfold plan. cbn [ns_project ns_configure ns_repl ns_ghc].
  destruct (project =? "") eqn:E; [|reflexivity].
  apply String.eqb_eq in E. contradiction.
Qed.

Lemma run_two_steps env s1 s2 :
  run_steps env [] [s1; s2] =
  let e1 := Write stdout (status_line s1 ++ nl) in
  let rc1 := env [e1] (command s1) in
  let e2 := Write stdout (status_line s2 ++ nl) in
  let rc2 := env [e1; CheckCall (command s1) rc1; e2] (command s2) in
  if (rc1 =? 0)%Z
  then ([e1; CheckCall (command s1) rc1; e2; CheckCall (command s2) rc2],
        if (rc2 =? 0)%Z then inr tt
        else inl (CalledProcessError rc2 (command s2)))
  else ([e1; CheckCall (command s1) rc1],
        inl (CalledProcessError rc1 (command s1))).
Proof.
  simpl. destruct (_ =? 0)%Z; [|reflexivity].
  destruct (_ =? 0)%Z; reflexivity.
Qed.

(** ** The single-project modes *)

(** C1.  With a project and neither [--configure] nor [--repl], the script
    does [configure] and then [build], both for GHCjs unless [--ghc] is
    given and then both for GHC: when no child fails, exactly the two
    [nix-shell] calls are made, in this order, and the script ends
    normally. *)
Theorem default_is_configure_then_build
    (project : string) (ghc : bool) (env : environment) :
  project <> "" ->
  let args := {| ns_ghc := ghc; ns_configure := false; ns_repl := false;
                 ns_project := Some project |} in
  let ghcjs := negb ghc in
  exec (dispatch args) env
    = exec (configure project ghcjs ;; build project ghcjs) env /\
  (all_succeeded (trace (dispatch args) env) ->
   calls (trace (dispatch args) env) =
     [ ["nix-shell"; "build.nix"; "-A"; project ++ ".env";
        "--arg"; "ghcjs"; if ghc then "false" else "true"; "--run";
        "cd " ++ project ++ " && runhaskell Setup.hs configure"
          ++ (if ghc then "" else " --ghcjs")];
       ["nix-shell"; "build.nix"; "-A"; project ++ ".env";
        "--arg"; "ghcjs"; if ghc then "false" else "true"; "--run";
        "cd " ++ project ++ " && runhaskell Setup.hs build"] ] /\
   snd (exec (dispatch args) env) = inr tt).
Proof.
  intros Hp args ghcjs. split.
  - pose proof (truthy_nonempty _ Hp) as Ht.
    unfold exec, dispatch, args. cbn [ns_project ns_configure ns_repl ns_ghc].
    rewrite Ht. reflexivity.
  - intros H. unfold trace. rewrite (succeeded_run _ _ H). simpl.
    split; [|reflexivity].
    rewrite calls_ok_events. unfold args. rewrite (plan_project _ _ _ _ Hp).
    destruct ghc; reflexivity.
Qed.

Lemma default_is_configure_then_build_witness :
  "anapo" <> "" /\
  calls (trace (dispatch {| ns_ghc := true; ns_configure := false;
                            ns_repl := false; ns_project := Some "anapo" |})
               (always 0)) =
    [ ["nix-shell"; "build.nix"; "-A"; "anapo.env"; "--arg"; "ghcjs";
       "false"; "--run"; "cd anapo && runhaskell Setup.hs configure"];
      ["nix-shell"; "build.nix"; "-A"; "anapo.env"; "--arg"; "ghcjs";
       "false"; "--run"; "cd anapo && runhaskell Setup.hs build"] ].
Proof.
  split; [discriminate|].
  refine (proj1 (proj2 (default_is_configure_then_build
                          "anapo" true (always 0) _) _)).
  - discriminate.
  - unfold all_succeeded. simpl. repeat constructor.
Defined.

(** C2.  With a project and [--repl], the script does [configure] and then
    [repl], both for GHC ([ghcjs] false) whatever [--ghc] says; the command
    run for [repl] carries [--ghc-options='-fobject-code -O0']. *)
Theorem repl_forces_ghc
    (project : string) (ghc : bool) (env : environment) :
  project <> "" ->
  let args := {| ns_ghc := ghc; ns_configure := false; ns_repl := true;
                 ns_project := Some project |} in
  let configure_call :=
    ["nix-shell"; "build.nix"; "-A"; project ++ ".env";
     "--arg"; "ghcjs"; "false"; "--run";
     "cd " ++ project ++ " && runhaskell Setup.hs configure"] in
  let repl_call :=
    ["nix-shell"; "build.nix"; "-A"; project ++ ".env";
     "--arg"; "ghcjs"; "false"; "--run";
     "cd " ++ project
       ++ " && runhaskell Setup.hs repl --ghc-options='-fobject-code -O0'"] in
  exec (dispatch args) env
    = exec (configure project false ;; repl project false) env /\
  (exists n,
     calls (trace (dispatch args) env) = firstn n [configure_call; repl_call]) /\
  (all_succeeded (trace (dispatch args) env) ->
   calls (trace (dispatch args) env) = [configure_call; repl_call]).
Proof.
  intros Hp args configure_call repl_call. split; [|split].
  - pose proof (truthy_nonempty _ Hp) as Ht.
    unfold exec, dispatch, args. cbn [ns_project ns_configure ns_repl ns_ghc].
    rewrite Ht. reflexivity.
  - destruct (run_prefix args env) as [n [Hn _]]. exists n.
    rewrite Hn. unfold args. rewrite (plan_project _ _ _ _ Hp). reflexivity.
  - intros H. unfold trace. rewrite (succeeded_run _ _ H). simpl.
    rewrite calls_ok_events. unfold args. rewrite (plan_project _ _ _ _ Hp).
    reflexivity.
Qed.

Lemma repl_forces_ghc_witness :
  "anapo" <> "" /\
  calls (trace (dispatch {| ns_ghc := false; ns_configure := false;
                            ns_repl := true; ns_project := Some "anapo" |})
               (always 0)) =
    [ ["nix-shell"; "build.nix"; "-A"; "anapo.env"; "--arg"; "ghcjs";
       "false"; "--run"; "cd anapo && runhaskell Setup.hs configure"];
      ["nix-shell"; "build.nix"; "-A"; "anapo.env"; "--arg"; "ghcjs";
       "false"; "--run";
       "cd anapo && runhaskell Setup.hs repl --ghc-options='-fobject-code -O0'"] ].
Proof.
  split; [discriminate|].
  refine (proj2 (proj2 (repl_forces_ghc "anapo" false (always 0) _)) _).
  - discriminate.
  - unfold all_succeeded. simpl. repeat constructor.
Defined.

(** C7.  [build.py anapo]: the line "### Configuring project anapo, using
    GHCjs." is printed, [nix-shell] is called for [anapo.env] with [ghcjs]
    true to run [configure --ghcjs], and, once that child has exited 0, the
    line is printed again and [nix-shell] is called with [ghcjs] true to run
    [build], which carries no toolchain flag. *)
Theorem anapo_scenario
    (negative_number_matcher : string -> bool) (env : environment) :
  let args := {| ns_ghc := false; ns_configure := false; ns_repl := false;
                 ns_project := Some "anapo" |} in
  let line :=
    Write stdout ("### Configuring project anapo, using GHCjs." ++ nl) in
  let configure_call :=
    ["nix-shell"; "build.nix"; "-A"; "anapo.env"; "--arg"; "ghcjs"; "true";
     "--run"; "cd anapo && runhaskell Setup.hs configure --ghcjs"] in
  let build_call :=
    ["nix-shell"; "build.nix"; "-A"; "anapo.env"; "--arg"; "ghcjs"; "true";
     "--run"; "cd anapo && runhaskell Setup.hs build"] in
  let rc1 := env [line] configure_call in
  let rc2 := env [line; CheckCall configure_call rc1; line] build_call in
  parse_args negative_number_matcher ["anapo"] = Parsed args /\
  trace (dispatch args) env =
    if (rc1 =? 0)%Z
    then [line; CheckCall configure_call rc1; line; CheckCall build_call rc2]
    else [line; CheckCall configure_call rc1].
Proof.
  intros args line configure_call build_call rc1 rc2. split; [reflexivity|].
  unfold trace, exec. rewrite dispatch_performs.
  change (plan args)
    with [configure_step "anapo" true; build_step "anapo" true].
  rewrite run_two_steps. cbv zeta.
  change (status_line (configure_step "anapo" true) ++ nl)
    with ("### Configuring project anapo, using GHCjs." ++ nl).
  change (status_line (build_step "anapo" true) ++ nl)
    with ("### Configuring project anapo, using GHCjs." ++ nl).
  change (command (configure_step "anapo" true)) with configure_call.
  change (command (build_step "anapo" true)) with build_call.
  fold line. fold rc1. fold rc2.
  destruct (rc1 =? 0)%Z; reflexivity.
Qed.

(** C8.  The status line of [build] starts with "### Configuring project",
    word for word the line of [configure], and not with "### Building"; it
    goes on with the project and the toolchain. *)
Theorem build_announces_configuring
    (project : string) (ghcjs : bool) (env : environment) :
  let line :=
    "### Configuring project " ++ project ++ ", "
      ++ (if ghcjs then "using GHCjs." else "using GHC.") in
  hd_error (trace (build project ghcjs) env) = Some (Write stdout (line ++ nl))
  /\ printed (trace (build project ghcjs) env) = [line ++ nl]
  /\ printed (trace (configure project ghcjs) env) = [line ++ nl]
  /\ prefix "### Configuring project" line = true
  /\ prefix "### Building" line = false.
Proof.
  intros line.
  unfold trace, exec, build, configure, run, bind, print, write, check_call.
  simpl.
  repeat split;
    try (destruct (_ =? 0)%Z; reflexivity); reflexivity.
Qed.

(** ** The mode without a project *)

Lemma plan_build_all g c r :
  map command (plan {| ns_ghc := g; ns_configure := c; ns_repl := r;
                       ns_project := None |}) = build_all_calls.
Proof. reflexivity. Qed.

Lemma Forall_firstn_of {A} (P : A -> Prop) n (l : list A) :
  Forall P l -> Forall P (firstn n l).
Proof.
  intros H. rewrite <- (firstn_skipn n l) in H.
  apply Forall_app in H. tauto.
Qed.

Lemma build_all_calls_nix_build :
  Forall (fun c => program c = Some "nix-build") build_all_calls.
Proof. repeat constructor. Qed.

(** C3.  Without a project the script makes the six [nix-build] calls, the
    three projects for GHCjs and then the three for GHC, as long as no child
    fails; no run calls anything but [nix-build], so [nix-shell] is never
    spawned; [--ghc], [--configure] and [--repl] change nothing. *)
Theorem build_all_six_calls (g c r : bool) (env : environment) :
  let args := {| ns_ghc := g; ns_configure := c; ns_repl := r;
                 ns_project := None |} in
  exec (dispatch args) env
    = exec (dispatch {| ns_ghc := false; ns_configure := false;
                        ns_repl := false; ns_project := None |}) env /\
  (exists n, calls (trace (dispatch args) env) = firstn n build_all_calls) /\
  Forall (fun call => program call = Some "nix-build")
         (calls (trace (dispatch args) env)) /\
  (all_succeeded (trace (dispatch args) env) ->
   calls (trace (dispatch args) env) = build_all_calls).
Proof.
  intros args.
  assert (Hn : exists n,
             calls (trace (dispatch args) env) = firstn n build_all_calls).
  { destruct (run_prefix args env) as [n [Hn _]]. exists n.
    rewrite Hn. unfold args. rewrite plan_build_all. reflexivity. }
  split; [reflexivity|]. split; [exact Hn|]. split.
  - destruct Hn as [n ->].
    apply Forall_firstn_of, build_all_calls_nix_build.
  - intros H. unfold trace. rewrite (succeeded_run _ _ H). cbn [fst].
    rewrite calls_ok_events. apply plan_build_all.
Qed.

Lemma build_all_six_calls_witness :
  calls (trace (dispatch {| ns_ghc := false; ns_configure := true;
                            ns_repl := false; ns_project := None |})
               (always 0)) = build_all_calls.
Proof.
  refine (proj2 (proj2 (proj2
            (build_all_six_calls false true false (always 0)))) _).
  unfold all_succeeded. simpl. repeat constructor.
Defined.

(** C9.  [build.py ""]: the empty string is parsed as the project, and an
    empty project is treated as no project at all: the script runs as it
    does without arguments, the dispatch as with [project] absent, with the
    six [nix-build] calls of that mode, and [nix-shell] is never spawned. *)
Theorem empty_project_builds_all
    (negative_number_matcher : string -> bool)
    (g c r : bool) (env : environment) :
  let args := {| ns_ghc := g; ns_configure := c; ns_repl := r;
                 ns_project := Some "" |} in
  parse_args negative_number_matcher [""]
    = Parsed {| ns_ghc := false; ns_configure := false; ns_repl := false;
                ns_project := Some "" |} /\
  (forall repr format_usage format_help prog,
     exec (main negative_number_matcher repr format_usage format_help prog
                [""]) env
     = exec (main negative_number_matcher repr format_usage format_help prog
                  []) env) /\
  exec (dispatch args) env
    = exec (dispatch {| ns_ghc := g; ns_configure := c; ns_repl := r;
                        ns_project := None |}) env /\
  (exists n, calls (trace (dispatch args) env) = firstn n build_all_calls) /\
  Forall (fun call => program call = Some "nix-build")
         (calls (trace (dispatch args) env)) /\
  (all_succeeded (trace (dispatch args) env) ->
   calls (trace (dispatch args) env) = build_all_calls).
Proof.
  intros args.
  assert (Hn : exists n,
             calls (trace (dispatch args) env) = firstn n build_all_calls).
  { destruct (run_prefix args env) as [n [Hn _]]. exists n.
    rewrite Hn. reflexivity. }
  split; [reflexivity|]. split; [reflexivity|]. split; [reflexivity|].
  split; [exact Hn|]. split.
  - destruct Hn as [n ->].
    apply Forall_firstn_of, build_all_calls_nix_build.
  - intros H. unfold trace. rewrite (succeeded_run _ _ H). cbn [fst].
    rewrite calls_ok_events. reflexivity.
Qed.

Lemma empty_project_builds_all_witness :
  calls (trace (dispatch {| ns_ghc := false; ns_configure := false;
                            ns_repl := true; ns_project := Some "" |})
               (always 0)) = build_all_calls.
Proof.
  refine (proj2 (proj2 (proj2 (proj2 (proj2
            (empty_project_builds_all ascii_negative_number
               false false true (always 0)))))) _).
  unfold all_succeeded. simpl. repeat constructor.
Defined.

(** ** Failures *)

Lemma not_in_split (l pre post : list event) e :
  l = (pre ++ e :: post)%list -> In e l.
Proof. intros ->. apply in_or_app. right. left. reflexivity. Qed.

(** A child that exits non-zero is the last event of the run, and the run
    ends with the [CalledProcessError] of that child. *)
Lemma dispatch_failure args env pre call returncode post :
  trace (dispatch args) env = (pre ++ CheckCall call returncode :: post)%list ->
  returncode <> 0%Z ->
  post = [] /\
  snd (exec (dispatch args) env) = inl (CalledProcessError returncode call).
Proof.
  unfold trace.
  destruct (exec_dispatch_shape args env) as [|pre0 s post0 rc Hss Hrc];
    cbn [fst snd app]; intros Heq Hne.
  - exfalso. apply Hne.
    apply (ok_events_no_failure (plan args) call).
    apply (not_in_split _ _ _ _ Heq).
  - change (ok_events pre0 ++ step_events s rc)%list
      with (ok_events pre0
              ++ [Write stdout (status_line s ++ nl)]
              ++ [CheckCall (command s) rc])%list in Heq.
    rewrite app_assoc in Heq.
    apply last_position in Heq.
    + destruct Heq as [Hpost [Hx _]]. inversion Hx; subst. auto.
    + intros Hin. apply in_app_or in Hin. destruct Hin as [Hin|[Hin|[]]].
      * apply Hne. apply (ok_events_no_failure pre0 call), Hin.
      * discriminate.
Qed.

Lemma fails_at_2_build_all g c r returncode :
  returncode <> 0%Z ->
  calls (trace (dispatch {| ns_ghc := g; ns_configure := c; ns_repl := r;
                            ns_project := None |})
               (fails_at 2 returncode))
  = firstn 2 build_all_calls.
Proof.
  intros H. destruct returncode; [contradiction | reflexivity | reflexivity].
Qed.

(** C4.  In every run, a child that exits non-zero is the last thing that
    happens: no later child is spawned, nothing more is printed.  This holds
    for the statements after parsing, for the whole script, and in the mode
    without a project a failure of the second [nix-build] leaves the other
    four uncalled. *)
Theorem failure_stops_the_run
    (negative_number_matcher : string -> bool) (repr : string -> string)
    (format_usage format_help : string -> string)
    (prog : string) (argv : list string)
    (args : Namespace) (env : environment) :
  (forall pre call returncode post,
     trace (dispatch args) env
       = (pre ++ CheckCall call returncode :: post)%list ->
     returncode <> 0%Z -> post = []) /\
  (forall pre call returncode post,
     trace (main negative_number_matcher repr format_usage format_help prog
                 argv) env
       = (pre ++ CheckCall call returncode :: post)%list ->
     returncode <> 0%Z -> post = []) /\
  (forall returncode,
     returncode <> 0%Z ->
     calls (trace (dispatch {| ns_ghc := false; ns_configure := false;
                               ns_repl := false; ns_project := None |})
                  (fails_at 2 returncode))
     = firstn 2 build_all_calls).
Proof.
  split; [|split].
  - intros pre call rc post Heq Hne.
    apply (dispatch_failure _ _ _ _ _ _ Heq Hne).
  - intros pre call rc post Heq Hne. unfold main in Heq.
    destruct (parse_args negative_number_matcher argv) as [args'| |e].
    + apply (dispatch_failure _ _ _ _ _ _ Heq Hne).
    + apply not_in_split in Heq. simpl in Heq.
      destruct Heq as [Heq|[]]. discriminate.
    + apply not_in_split in Heq. simpl in Heq.
      destruct Heq as [Heq|[Heq|[]]]; discriminate.
  - intros rc Hne. apply fails_at_2_build_all, Hne.
Qed.

Lemma failure_stops_the_run_witness :
  let args := {| ns_ghc := false; ns_configure := false; ns_repl := false;
                 ns_project := None |} in
  let call1 :=
    ["nix-build"; "build.nix"; "-A"; "anapo"; "--arg"; "ghcjs"; "true"] in
  let call2 :=
    ["nix-build"; "build.nix"; "-A"; "anapo-test-app";
     "--arg"; "ghcjs"; "true"] in
  let pre :=
    [Write stdout ("### Building project anapo (nix), using GHCjs." ++ nl);
     CheckCall call1 0;
     Write stdout
       ("### Building project anapo-test-app (nix), using GHCjs." ++ nl)] in
  trace (dispatch args) (fails_at 2 1) = (pre ++ CheckCall call2 1 :: [])%list
  /\ (1 <> 0)%Z
  /\ trace (main ascii_negative_number quoted one_line_usage short_help
                 "build.py" []) (fails_at 2 1)
     = (pre ++ CheckCall call2 1 :: [])%list
  /\ calls (trace (dispatch args) (fails_at 2 1)) = firstn 2 build_all_calls.
Proof.
  intros args call1 call2 pre.
  assert (H1 : trace (dispatch args) (fails_at 2 1)
               = (pre ++ CheckCall call2 1 :: [])%list) by reflexivity.
  assert (H2 : trace (main ascii_negative_number quoted one_line_usage
                           short_help "build.py" [])
                     (fails_at 2 1)
               = (pre ++ CheckCall call2 1 :: [])%list) by reflexivity.
  assert (Hne : (1 <> 0)%Z) by discriminate.
  destruct (failure_stops_the_run ascii_negative_number quoted one_line_usage short_help "build.py" []
              args (fails_at 2 1)) as [Hd [Hm Hb]].
  pose proof (Hd pre call2 1%Z [] H1 Hne) as _.
  pose proof (Hm pre call2 1%Z [] H2 Hne) as _.
  split; [exact H1|]. split; [exact Hne|]. split; [exact H2|].
  exact (Hb 1%Z Hne).
Defined.

(** The exit status of the statements after parsing. *)
Lemma dispatch_exit_status (args : Namespace) (env : environment) :
  let log := trace (dispatch args) env in
  let result := snd (exec (dispatch args) env) in
  (exit_status result = 0%Z <-> all_succeeded log) /\
  (forall pre call returncode post,
     log = (pre ++ CheckCall call returncode :: post)%list ->
     returncode <> 0%Z ->
     post = [] /\
     result = inl (CalledProcessError returncode call) /\
     exit_status result = 1%Z).
Proof.
  intros log result. split.
  - unfold log, result, trace.
    destruct (exec_dispatch_shape args env) as [|pre s post rc Hss Hrc];
      cbn [fst snd app exit_status].
    + split; [intros _; apply all_succeeded_ok_events | reflexivity].
    + split; [discriminate|].
      intros H. exfalso. revert H. apply stopped_not_all_succeeded, Hrc.
  - intros pre call rc post Heq Hne.
    destruct (dispatch_failure _ _ _ _ _ _ Heq Hne) as [Hpost Hres].
    unfold result. rewrite Hres. auto.
Qed.

(** C6, as stated, fails: [build.py --configure --repl] spawns no child,
    so no child exits non-zero, and yet the script exits with status 2. *)
Lemma usage_error_is_not_a_child_failure :
  let script :=
    main ascii_negative_number quoted one_line_usage short_help "build.py"
         ["--configure"; "--repl"] in
  calls (trace script (always 0)) = [] /\
  all_succeeded (trace script (always 0)) /\
  exit_status (snd (exec script (always 0))) = 2%Z /\
  ~ (exit_status (snd (exec script (always 0))) = 0%Z
     <-> all_succeeded (trace script (always 0))).
Proof.
  intros script.
  assert (Hall : all_succeeded (trace script (always 0))) by constructor.
  split; [reflexivity|]. split; [exact Hall|]. split; [reflexivity|].
  intros [_ H]. specialize (H Hall). discriminate.
Qed.

(** C6 (amended).  When the command line is accepted, the script exits
    with status 0 exactly when every child it spawned exited 0; a child
    that exits non-zero makes it end at once with the [CalledProcessError]
    of that child, which the interpreter turns into exit status 1, whatever
    the status of the child was.  When the parser rejects the command line
    the script exits with status 2, and when it prints the help with
    status 0, in both cases without having spawned a child. *)
Theorem exit_status_reports_failure
    (negative_number_matcher : string -> bool) (repr : string -> string)
    (format_usage format_help : string -> string)
    (prog : string) (argv : list string) (env : environment) :
  let script :=
    main negative_number_matcher repr format_usage format_help prog argv in
  let log := trace script env in
  let result := snd (exec script env) in
  (forall args,
     parse_args negative_number_matcher argv = Parsed args ->
     (exit_status result = 0%Z <-> all_succeeded log) /\
     (forall pre call returncode post,
        log = (pre ++ CheckCall call returncode :: post)%list ->
        returncode <> 0%Z ->
        post = [] /\
        result = inl (CalledProcessError returncode call) /\
        exit_status result = 1%Z)) /\
  (forall e,
     parse_args negative_number_matcher argv = Error e ->
     calls log = [] /\ exit_status result = 2%Z) /\
  (parse_args negative_number_matcher argv = Help ->
   calls log = [] /\ exit_status result = 0%Z).
Proof.
  intros script log result. subst result log script. unfold main.
  destruct (parse_args negative_number_matcher argv) as [args'| |e'].
  - split; [|split; [discriminate | discriminate]].
    intros args [= <-]. apply dispatch_exit_status.
  - split; [discriminate|]. split; [discriminate|].
    intros _. split; reflexivity.
  - split; [discriminate|]. split; [|discriminate].
    intros e _. split; reflexivity.
Qed.

Lemma exit_status_reports_failure_witness :
  let args := {| ns_ghc := false; ns_configure := true; ns_repl := false;
                 ns_project := Some "anapo" |} in
  let script argv :=
    main ascii_negative_number quoted one_line_usage short_help "build.py"
         argv in
  let call :=
    ["nix-shell"; "build.nix"; "-A"; "anapo.env"; "--arg"; "ghcjs"; "true";
     "--run"; "cd anapo && runhaskell Setup.hs configure --ghcjs"] in
  let line :=
    Write stdout ("### Configuring project anapo, using GHCjs." ++ nl) in
  parse_args ascii_negative_number ["--configure"; "anapo"] = Parsed args /\
  exit_status (snd (exec (script ["--configure"; "anapo"]) (always 0))) = 0%Z
  /\ trace (script ["--configure"; "anapo"]) (always 127)
     = ([line] ++ CheckCall call 127 :: [])%list
  /\ (127 <> 0)%Z
  /\ snd (exec (script ["--configure"; "anapo"]) (always 127))
     = inl (CalledProcessError 127 call)
  /\ exit_status (snd (exec (script ["--configure"; "anapo"]) (always 127)))
     = 1%Z
  /\ parse_args ascii_negative_number ["anapo"; "--repl"; "--"]
     = Error (UnrecognizedArguments ["--"])
  /\ exit_status (snd (exec (script ["anapo"; "--repl"; "--"]) (always 0)))
     = 2%Z
  /\ parse_args ascii_negative_number ["--help"] = Help
  /\ exit_status (snd (exec (script ["--help"]) (always 0))) = 0%Z.
Proof.
  intros args script call line.
  assert (Hp : parse_args ascii_negative_number ["--configure"; "anapo"]
               = Parsed args) by reflexivity.
  assert (H1 : trace (script ["--configure"; "anapo"]) (always 127)
               = ([line] ++ CheckCall call 127 :: [])%list) by reflexivity.
  assert (Hne : (127 <> 0)%Z) by discriminate.
  assert (He : parse_args ascii_negative_number ["anapo"; "--repl"; "--"]
               = Error (UnrecognizedArguments ["--"])) by reflexivity.
  assert (Hh : parse_args ascii_negative_number ["--help"] = Help)
    by reflexivity.
  destruct (exit_status_reports_failure ascii_negative_number quoted
              one_line_usage short_help "build.py" ["--configure"; "anapo"]
              (always 0)) as [Hok0 _].
  destruct (Hok0 args Hp) as [[_ Hok] _].
  destruct (exit_status_reports_failure ascii_negative_number quoted
              one_line_usage short_help "build.py" ["--configure"; "anapo"]
              (always 127)) as [Hfail0 _].
  destruct (Hfail0 args Hp) as [_ Hfail].
  destruct (Hfail [line] call 127%Z [] H1 Hne) as [_ [Hres Hst]].
  destruct (exit_status_reports_failure ascii_negative_number quoted
              one_line_usage short_help "build.py" ["anapo"; "--repl"; "--"]
              (always 0)) as [_ [Herr _]].
  destruct (exit_status_reports_failure ascii_negative_number quoted
              one_line_usage short_help "build.py" ["--help"]
              (always 0)) as [_ [_ Hhelp]].
  split; [exact Hp|]. split.
  { apply Hok. unfold all_succeeded. simpl. repeat constructor. }
  split; [exact H1|]. split; [exact Hne|]. split; [exact Hres|].
  split; [exact Hst|]. split; [exact He|].
  split; [exact (proj2 (Herr _ He))|]. split; [exact Hh|].
  exact (proj2 (Hhelp Hh)).
Defined.

(** ** Determinism *)

Lemma app_same_length {A} (l1 l2 r1 r2 : list A) :
  List.length l1 = List.length l2 ->
  (l1 ++ r1)%list = (l2 ++ r2)%list -> l1 = l2 /\ r1 = r2.
Proof.
  revert l2. induction l1 as [|x l1 IH]; intros [|y l2] Hlen Heq;
    simpl in *; try discriminate; auto.
  injection Heq as -> Heq. injection Hlen as Hlen.
  destruct (IH _ Hlen Heq) as [-> ->]. auto.
Qed.

Lemma returncodes_stopped pre s returncode :
  returncodes (ok_events pre ++ step_events s returncode)
  = (map (fun _ => 0%Z) pre ++ [returncode])%list.
Proof. rewrite returncodes_app, returncodes_ok_events. reflexivity. Qed.

(** C10, as stated, fails: with the same parsed arguments, a run whose
    [configure] child fails prints one line and makes one call, a run whose
    children succeed prints two lines and makes two calls. *)
Lemma same_arguments_different_runs :
  let args := {| ns_ghc := false; ns_configure := false; ns_repl := false;
                 ns_project := Some "anapo" |} in
  List.length (printed (trace (dispatch args) (always 0))) = 2 /\
  List.length (printed (trace (dispatch args) (always 1))) = 1 /\
  printed (trace (dispatch args) (always 0))
    <> printed (trace (dispatch args) (always 1)) /\
  calls (trace (dispatch args) (always 0))
    <> calls (trace (dispatch args) (always 1)).
Proof.
  intros args. split; [reflexivity|]. split; [reflexivity|].
  split; discriminate.
Qed.

(** C10 (amended).  The status lines and the argument lists of a run are
    fixed by the parsed arguments and the exit statuses of the children:
    every run prints an initial part of one sequence of lines and calls the
    same initial part of one sequence of argument lists, both fixed by the
    parsed arguments alone, and two runs whose children exit with the same
    statuses are the same run, event for event. *)
Theorem dispatch_is_deterministic (args : Namespace) :
  (exists lines cmds,
     forall env, exists n,
       printed (trace (dispatch args) env) = firstn n lines /\
       calls (trace (dispatch args) env) = firstn n cmds) /\
  (forall env1 env2,
     returncodes (trace (dispatch args) env1)
       = returncodes (trace (dispatch args) env2) ->
     printed (trace (dispatch args) env1)
       = printed (trace (dispatch args) env2) /\
     calls (trace (dispatch args) env1)
       = calls (trace (dispatch args) env2) /\
     exec (dispatch args) env1 = exec (dispatch args) env2).
Proof.
  split.
  - exists (map (fun s => status_line s ++ nl) (plan args)),
           (map command (plan args)).
    intros env. destruct (run_prefix args env) as [n [Hc Hp]].
    exists n. auto.
  - intros env1 env2 H.
    assert (E : exec (dispatch args) env1 = exec (dispatch args) env2).
    { unfold trace in H.
      destruct (exec_dispatch_shape args env1) as [|pre1 s1 post1 rc1 Hs1 Hr1];
        destruct (exec_dispatch_shape args env2)
          as [|pre2 s2 post2 rc2 Hs2 Hr2];
        cbn [fst app] in H.
      - reflexivity.
      - exfalso. rewrite returncodes_stopped, returncodes_ok_events in H.
        rewrite Hs2, map_app in H. apply app_inv_head in H.
        simpl in H. injection H as H _. auto.
      - exfalso. rewrite returncodes_stopped, returncodes_ok_events in H.
        rewrite Hs1, map_app in H. apply app_inv_head in H.
        simpl in H. injection H as H _. auto.
      - rewrite !returncodes_stopped in H. apply app_inj_tail in H.
        destruct H as [Hz ->].
        apply (f_equal (@List.length Z)) in Hz. rewrite !length_map in Hz.
        rewrite Hs1 in Hs2.
        destruct (app_same_length _ _ _ _ Hz Hs2) as [-> Hrest].
        injection Hrest as -> _. reflexivity. }
    unfold trace. rewrite E. auto.
Qed.


Lemma dispatch_is_deterministic_witness :
  let args := {| ns_ghc := false; ns_configure := false; ns_repl := false;
                 ns_project := Some "anapo" |} in
  let env1 := fails_at 2 3 in
  let env2 :=
    fails_when
      (existsb (String.eqb "cd anapo && runhaskell Setup.hs build")) 3 in
  returncodes (trace (dispatch args) env1) = [0%Z; 3%Z] /\
  returncodes (trace (dispatch args) env2) = [0%Z; 3%Z] /\
  exec (dispatch args) env1 = exec (dispatch args) env2.
Proof.
  intros args env1 env2.
  assert (H : returncodes (trace (dispatch args) env1)
              = returncodes (trace (dispatch args) env2)) by reflexivity.
  split; [reflexivity|]. split; [reflexivity|].
  exact (proj2 (proj2 (proj2 (dispatch_is_deterministic args) env1 env2 H))).
Defined.

(** ** The mutually exclusive flags *)










(** Options in front of [--] keep their place in the pattern. *)
Lemma pattern_keeps_options m argv : forall entries tok a os e,
  arg_strings_pattern m argv = inr entries ->
  In tok (options_part argv) ->
  parse_optional m tok = OptionTuple a os e ->
  In (O tok a os e) entries.
Proof.
  induction argv as [|s rest IH]; simpl; intros entries tok a os e Hp Hin Hpo.
  - destruct Hin.
  - destruct (s =? "--"); [destruct Hin|].
    destruct Hin as [->|Hin].
    + rewrite Hpo in Hp.
      destruct (arg_strings_pattern m rest); [discriminate|].
      injection Hp as <-. left. reflexivity.
    + destruct (parse_optional m s);
        destruct (arg_strings_pattern m rest) eqn:E; try discriminate;
        injection Hp as <-; right; eapply IH; eauto.
Qed.









(** * Further properties of the script *)

(** ** Single-project runs in full *)

Lemma run_one_step env s :
  run_steps env [] [s] =
  let e := Write stdout (status_line s ++ nl) in
  let rc := env [e] (command s) in
  ([e; CheckCall (command s) rc],
   if (rc =? 0)%Z then inr tt
   else inl (CalledProcessError rc (command s))).
Proof. simpl. destruct (_ =? 0)%Z; reflexivity. Qed.

(** X1.  With a project and [--configure] the script only configures: it
    prints the line of [configure], spawns the one [nix-shell] that runs
    [configure], for GHCjs unless [--ghc] is given, and ends with the
    outcome of that child; [build] and [repl] are not reached. *)
Theorem configure_only
    (project : string) (ghc r : bool) (env : environment) :
  project <> "" ->
  let args := {| ns_ghc := ghc; ns_configure := true; ns_repl := r;
                 ns_project := Some project |} in
  let line :=
    Write stdout
      (("### Configuring project " ++ project ++ ", "
          ++ (if ghc then "using GHC." else "using GHCjs.")) ++ nl) in
  let call :=
    ["nix-shell"; "build.nix"; "-A"; project ++ ".env";
     "--arg"; "ghcjs"; if ghc then "false" else "true"; "--run";
     "cd " ++ project ++ " && runhaskell Setup.hs configure"
       ++ (if ghc then "" else " --ghcjs")] in
  let rc := env [line] call in
  exec (dispatch args) env =
    ([line; CheckCall call rc],
     if (rc =? 0)%Z then inr tt else inl (CalledProcessError rc call)).
Proof.
  intros Hp args line call rc. subst rc line call.
  unfold exec. rewrite dispatch_performs. unfold args.
  rewrite (plan_project _ _ _ _ Hp), run_one_step.
  destruct ghc; reflexivity.
Qed.

Lemma configure_only_witness :
  "anapo" <> "" /\
  exec (dispatch {| ns_ghc := true; ns_configure := true; ns_repl := false;
                    ns_project := Some "anapo" |}) (always 2) =
    ([Write stdout ("### Configuring project anapo, using GHC." ++ nl);
      CheckCall
        ["nix-shell"; "build.nix"; "-A"; "anapo.env"; "--arg"; "ghcjs";
         "false"; "--run"; "cd anapo && runhaskell Setup.hs configure"] 2],
     inl (CalledProcessError 2
            ["nix-shell"; "build.nix"; "-A"; "anapo.env"; "--arg"; "ghcjs";
             "false"; "--run"; "cd anapo && runhaskell Setup.hs configure"])).
Proof.
  split; [discriminate|].
  exact (configure_only "anapo" true false (always 2) ltac:(discriminate)).
Defined.

(** X2.  In the modes that configure first, the second child ([build], or
    [repl] under [--repl]) is spawned exactly when the [configure] child
    has exited 0; otherwise the run ends after [configure] with its
    [CalledProcessError].  The second status line is printed only in the
    first case. *)
Theorem second_child_needs_configure
    (project : string) (ghc r : bool) (env : environment) :
  project <> "" ->
  let args := {| ns_ghc := ghc; ns_configure := false; ns_repl := r;
                 ns_project := Some project |} in
  let ghcjs := if r then false else negb ghc in
  let label := if ghcjs then "using GHCjs." else "using GHC." in
  let line1 :=
    Write stdout
      (("### Configuring project " ++ project ++ ", " ++ label) ++ nl) in
  let call1 :=
    nix_shell project ghcjs
      ("configure" ++ (if ghcjs then " --ghcjs" else "")) in
  let line2 :=
    Write stdout
      (((if r then "### REPLing project " else "### Configuring project ")
          ++ project ++ ", " ++ label) ++ nl) in
  let call2 :=
    nix_shell project ghcjs
      (if r then "repl --ghc-options='-fobject-code -O0'" else "build") in
  let rc1 := env [line1] call1 in
  let rc2 := env [line1; CheckCall call1 rc1; line2] call2 in
  exec (dispatch args) env =
    if (rc1 =? 0)%Z
    then ([line1; CheckCall call1 rc1; line2; CheckCall call2 rc2],
          if (rc2 =? 0)%Z then inr tt
          else inl (CalledProcessError rc2 call2))
    else ([line1; CheckCall call1 rc1],
          inl (CalledProcessError rc1 call1)).
Proof.
  intros Hp args ghcjs label line1 call1 line2 call2 rc1 rc2.
  subst rc2 rc1 call2 line2 call1 line1 label ghcjs.
  unfold exec. rewrite dispatch_performs. unfold args.
  rewrite (plan_project _ _ _ _ Hp).
  destruct r, ghc; cbv iota; rewrite run_two_steps; reflexivity.
Qed.

Lemma second_child_needs_configure_witness :
  "anapo" <> "" /\
  calls (trace (dispatch {| ns_ghc := false; ns_configure := false;
                            ns_repl := false; ns_project := Some "anapo" |})
               (always 1)) =
    [ ["nix-shell"; "build.nix"; "-A"; "anapo.env"; "--arg"; "ghcjs";
       "true"; "--run";
       "cd anapo && runhaskell Setup.hs configure --ghcjs"] ].
Proof.
  split; [discriminate|].
  unfold trace.
  rewrite (second_child_needs_configure "anapo" false false (always 1)
             ltac:(discriminate)).
  reflexivity.
Defined.

(** ** The shape of every run *)

Lemma ok_events_announced ss :
  ok_events ss =
  flat_map announced (map (fun s => (status_line s ++ nl, command s, 0%Z)) ss).
Proof. induction ss as [|s ss IH]; simpl; [reflexivity | rewrite IH; reflexivity]. Qed.

Lemma trace_announced args env :
  exists l, trace (dispatch args) env = flat_map announced l.
Proof.
  unfold trace.
  destruct (exec_dispatch_shape args env) as [|pre s post rc Hss Hrc];
    cbn [fst app].
  - eexists. apply ok_events_announced.
  - exists (List.app
              (map (fun s => (status_line s ++ nl, command s, 0%Z)) pre)
              [(status_line s ++ nl, command s, rc)]).
    rewrite flat_map_app, <- ok_events_announced. simpl.
    reflexivity.
Qed.

Lemma announced_preceded l : forall pre call rc post,
  flat_map announced l = (pre ++ CheckCall call rc :: post)%list ->
  exists pre' line, pre = (pre' ++ [Write stdout line])%list.
Proof.
  induction l as [|x l IH]; intros pre call rc post H.
  - destruct pre; discriminate.
  - simpl in H. destruct pre as [|e1 [|e2 pre]]; simpl in H.
    + discriminate.
    + injection H as <- _ _. exists [], (fst (fst x)). reflexivity.
    + injection H as <- <- H.
      destruct (IH _ _ _ _ H) as [pre' [line ->]].
      exists (Write stdout (fst (fst x))
                :: CheckCall (snd (fst x)) (snd x) :: pre'), line.
      reflexivity.
Qed.

Lemma announced_counts l :
  List.length (printed (flat_map announced l))
  = List.length (calls (flat_map announced l)).
Proof. induction l as [|x l IH]; simpl; [reflexivity | rewrite IH; reflexivity]. Qed.

Lemma announced_quiet l : quiet (flat_map announced l).
Proof.
  intros text H. apply in_flat_map in H. destruct H as [x [_ H]].
  simpl in H. destruct H as [H|[H|[]]]; discriminate.
Qed.

(** X3.  Whatever the arguments and the children do, the statements after
    parsing print one status line in front of every child and nothing
    else: the log is a sequence of pairs (status line, child), there are as
    many lines as children, each child comes right after a line on standard
    output, and nothing is written to standard error. *)
Theorem every_child_is_announced (args : Namespace) (env : environment) :
  let log := trace (dispatch args) env in
  (exists l, log = flat_map announced l) /\
  List.length (printed log) = List.length (calls log) /\
  quiet log /\
  (forall pre call returncode post,
     log = (pre ++ CheckCall call returncode :: post)%list ->
     exists pre' line, pre = (pre' ++ [Write stdout line])%list).
Proof.
  intros log. destruct (trace_announced args env) as [l Hl].
  unfold log. rewrite Hl. split; [exists l; reflexivity|].
  split; [apply announced_counts|]. split; [apply announced_quiet|].
  apply announced_preceded.
Qed.

Lemma every_child_is_announced_witness :
  let args := {| ns_ghc := false; ns_configure := true; ns_repl := false;
                 ns_project := Some "anapo" |} in
  let line :=
    Write stdout ("### Configuring project anapo, using GHCjs." ++ nl) in
  let call :=
    ["nix-shell"; "build.nix"; "-A"; "anapo.env"; "--arg"; "ghcjs"; "true";
     "--run"; "cd anapo && runhaskell Setup.hs configure --ghcjs"] in
  trace (dispatch args) (always 0) = ([line] ++ CheckCall call 0 :: [])%list /\
  exists pre' text, [line] = (pre' ++ [Write stdout text])%list.
Proof.
  intros args line call.
  assert (H : trace (dispatch args) (always 0)
              = ([line] ++ CheckCall call 0 :: [])%list) by reflexivity.
  split; [exact H|].
  exact (proj2 (proj2 (proj2 (every_child_is_announced args (always 0))))
           [line] call 0%Z [] H).
Defined.

Lemma plan_length args :
  if truthy (ns_project args)
  then 1 <= List.length (plan args) <= 2
  else List.length (plan args) = 6.
Proof.
  destruct args as [g c r [p|]]; unfold plan; simpl; [|reflexivity].
  destruct (p =? ""); simpl; [reflexivity|].
  destruct c; [simpl; lia|]. destruct r; simpl; lia.
Qed.

Lemma calls_bounds args env :
  plan args <> [] ->
  1 <= List.length (calls (trace (dispatch args) env))
    <= List.length (plan args).
Proof.
  intros Hne. unfold trace.
  destruct (exec_dispatch_shape args env) as [|pre s post rc Hss Hrc];
    cbn [fst app].
  - rewrite calls_ok_events, length_map.
    destruct (plan args); [contradiction | simpl; lia].
  - rewrite calls_app, calls_ok_events, length_app, length_map, Hss,
      length_app.
    simpl. lia.
Qed.

Lemma calls_in_plan args env call :
  In call (calls (trace (dispatch args) env)) ->
  In call (map command (plan args)).
Proof.
  destruct (run_prefix args env) as [n [-> _]]. intros H.
  rewrite <- (firstn_skipn n (map command (plan args))).
  apply in_or_app. left. exact H.
Qed.

(** X4.  Every run of the statements after parsing spawns at least one
    child and at most six.  With a project it spawns at most two, each of
    them [nix-shell] on the attribute [<project>.env]: [nix-build] is never
    used for a single project. *)
Theorem number_of_children (args : Namespace) (env : environment) :
  let log := trace (dispatch args) env in
  1 <= List.length (calls log) <= 6 /\
  (forall project,
     ns_project args = Some project -> project <> "" ->
     List.length (calls log) <= 2 /\
     forall call,
       In call (calls log) ->
       program call = Some "nix-shell" /\
       nth_error call 3 = Some (project ++ ".env")).
Proof.
  intros log. unfold log.
  pose proof (plan_length args) as Hlen.
  assert (Hne : plan args <> []).
  { intros E. rewrite E in Hlen. simpl in Hlen.
    destruct (truthy (ns_project args)); [lia | discriminate]. }
  pose proof (calls_bounds args env Hne) as Hb.
  split.
  - destruct (truthy (ns_project args)); lia.
  - intros project Hproj Hp.
    destruct args as [g c r pr]. simpl in Hproj. subst pr.
    cbn [ns_project] in Hlen. rewrite (truthy_nonempty _ Hp) in Hlen.
    split; [lia|].
    intros call Hin. apply calls_in_plan in Hin.
    rewrite (plan_project _ _ _ _ Hp) in Hin.
    destruct c; [|destruct r]; simpl in Hin;
      repeat (destruct Hin as [<-|Hin]; [split; reflexivity|]);
      destruct Hin.
Qed.

Lemma number_of_children_witness :
  let args := {| ns_ghc := false; ns_configure := false; ns_repl := true;
                 ns_project := Some "anapo-test-app" |} in
  let call :=
    ["nix-shell"; "build.nix"; "-A"; "anapo-test-app.env"; "--arg"; "ghcjs";
     "false"; "--run"; "cd anapo-test-app && runhaskell Setup.hs configure"]
  in
  ns_project args = Some "anapo-test-app" /\ "anapo-test-app" <> "" /\
  In call (calls (trace (dispatch args) (always 1))) /\
  nth_error call 3 = Some "anapo-test-app.env".
Proof.
  intros args call.
  assert (Hin : In call (calls (trace (dispatch args) (always 1))))
    by (left; reflexivity).
  split; [reflexivity|]. split; [discriminate|]. split; [exact Hin|].
  exact (proj2 (proj2 (proj2 (number_of_children args (always 1))
                         "anapo-test-app" eq_refl ltac:(discriminate))
                  call Hin)).
Defined.

(** ** Status lines and toolchains *)

Lemma string_app_assoc (a b c : string) : (a ++ b) ++ c = a ++ b ++ c.
Proof. induction a as [|x a IH]; simpl; [reflexivity | rewrite IH; reflexivity]. Qed.

Lemma ends_with_app suffix a : ends_with suffix (a ++ suffix) = true.
Proof.
  induction a as [|x a IH]; simpl.
  - destruct suffix; simpl; rewrite ?Ascii.eqb_refl, ?String.eqb_refl; reflexivity.
  - rewrite IH. apply orb_true_r.
Qed.

Lemma ends_with_right suffix a b :
  ends_with suffix b = true -> ends_with suffix (a ++ b) = true.
Proof.
  intros H. induction a as [|x a IH]; simpl; [exact H|].
  rewrite IH. apply orb_true_r.
Qed.

Lemma trace_announced_steps args env :
  exists l,
    trace (dispatch args) env = flat_map announced l /\
    forall x, In x l ->
      exists s, In s (plan args) /\
                fst (fst x) = status_line s ++ nl /\
                snd (fst x) = command s.
Proof.
  unfold trace.
  destruct (exec_dispatch_shape args env) as [|pre s post rc Hss Hrc];
    cbn [fst app].
  - eexists. split; [apply ok_events_announced|].
    intros x Hx. apply in_map_iff in Hx. destruct Hx as [s [<- Hs]].
    exists s. auto.
  - exists (List.app
              (map (fun s => (status_line s ++ nl, command s, 0%Z)) pre)
              [(status_line s ++ nl, command s, rc)]).
    split.
    + rewrite flat_map_app, <- ok_events_announced. reflexivity.
    + intros x Hx. apply in_app_or in Hx. destruct Hx as [Hx|[<-|[]]].
      * apply in_map_iff in Hx. destruct Hx as [s' [<- Hs]].
        exists s'. rewrite Hss. split; [|auto].
        apply in_or_app. left. exact Hs.
      * exists s. rewrite Hss. split; [|auto].
        apply in_or_app. right. left. reflexivity.
Qed.

Lemma announced_adjacent l : forall pre line call rc post,
  flat_map announced l
    = (pre ++ Write stdout line :: CheckCall call rc :: post)%list ->
  In (line, call, rc) l.
Proof.
  induction l as [|x l IH]; intros pre line call rc post H.
  - destruct pre; discriminate.
  - simpl in H. destruct pre as [|e1 [|e2 pre]]; simpl in H.
    + injection H as H1 H2 H3 _. left.
      destruct x as [[a b] c]. simpl in *. congruence.
    + injection H as _ H _. discriminate.
    + injection H as _ _ H. right. eapply IH, H.
Qed.

Lemma plan_step_kinds args s :
  In s (plan args) ->
  exists p g,
    s = configure_step p g \/ s = build_step p g \/
    s = repl_step p g \/ s = build_nix_step p g.
Proof.
  destruct args as [g c r [p|]]; unfold plan; cbn [ns_project ns_configure
    ns_repl ns_ghc].
  - destruct (p =? "").
    + simpl. intros H.
      repeat (destruct H as [<-|H]; [eexists _, _; do 3 right; reflexivity|]).
      destruct H.
    + destruct c; [|destruct r]; simpl; intros H;
        repeat (destruct H as [<-|H]; [eexists _, _; eauto|]); destruct H.
  - simpl. intros H.
    repeat (destruct H as [<-|H]; [eexists _, _; do 3 right; reflexivity|]).
    destruct H.
Qed.

Lemma step_label s p g :
  s = configure_step p g \/ s = build_step p g \/
  s = repl_step p g \/ s = build_nix_step p g ->
  ends_with (using_label g ++ nl) (status_line s ++ nl) = true /\
  nth_error (command s) 6 = Some (if g then "true" else "false").
Proof.
  intros [-> | [-> | [-> | ->]]]; (split; [|reflexivity]);
    cbn [status_line configure_step build_step repl_step build_nix_step];
    rewrite !string_app_assoc;
    do 3 apply ends_with_right;
    apply (ends_with_app _ "").
Qed.

(** X5.  A status line never names the wrong toolchain: whenever a line is
    followed by its child, the line ends with "using GHCjs." and the child
    is passed [--arg ghcjs true], or it ends with "using GHC." and the
    child is passed [--arg ghcjs false]. *)
Theorem status_line_names_toolchain
    (args : Namespace) (env : environment)
    (pre post : list event) (line : string) (call : list string) (rc : Z) :
  trace (dispatch args) env
    = (pre ++ Write stdout line :: CheckCall call rc :: post)%list ->
  (ends_with ("using GHCjs." ++ nl) line = true /\
   nth_error call 6 = Some "true") \/
  (ends_with ("using GHC." ++ nl) line = true /\
   nth_error call 6 = Some "false").
Proof.
  intros H. destruct (trace_announced_steps args env) as [l [Hl Hsteps]].
  rewrite Hl in H. apply announced_adjacent in H.
  destruct (Hsteps _ H) as [s [Hs [Hline Hcall]]]. simpl in Hline, Hcall.
  destruct (plan_step_kinds _ _ Hs) as [p [g Hk]].
  destruct (step_label s p g Hk) as [He Hn].
  rewrite Hline, Hcall. destruct g; [left | right]; auto.
Qed.

Lemma status_line_names_toolchain_witness :
  let args := {| ns_ghc := true; ns_configure := false; ns_repl := false;
                 ns_project := None |} in
  let line := "### Building project anapo (nix), using GHCjs." ++ nl in
  let call :=
    ["nix-build"; "build.nix"; "-A"; "anapo"; "--arg"; "ghcjs"; "true"] in
  trace (dispatch args) (always 5)
    = ([] ++ Write stdout line :: CheckCall call 5 :: [])%list /\
  ((ends_with ("using GHCjs." ++ nl) line = true /\
    nth_error call 6 = Some "true") \/
   (ends_with ("using GHC." ++ nl) line = true /\
    nth_error call 6 = Some "false")).
Proof.
  intros args line call.
  assert (H : trace (dispatch args) (always 5)
              = ([] ++ Write stdout line :: CheckCall call 5 :: [])%list)
    by reflexivity.
  split; [exact H|].
  exact (status_line_names_toolchain args (always 5) [] [] line call 5%Z H).
Defined.

(** ** Order of the builds without a project *)

Lemma returncodes_prefix_zero pre s rc n :
  n <= List.length pre ->
  firstn n (returncodes (ok_events pre ++ step_events s rc))
  = firstn n (map (fun _ => 0%Z) pre).
Proof.
  intros H. rewrite returncodes_stopped, firstn_app.
  rewrite length_map.
  replace (n - List.length pre) with 0 by lia.
  simpl. apply app_nil_r.
Qed.

(** X6.  Without a project, a build for GHC is attempted only after the
    three builds for GHCjs have been spawned and have all exited 0: a run
    in which some child is passed [ghcjs false] starts with the three GHCjs
    calls, each with status 0. *)
Theorem ghc_builds_follow_ghcjs_builds
    (g c r : bool) (env : environment) (project : string) :
  let log := trace (dispatch {| ns_ghc := g; ns_configure := c;
                                ns_repl := r; ns_project := None |}) env in
  In (nix_build project false) (calls log) ->
  firstn 3 (calls log) = firstn 3 build_all_calls /\
  firstn 3 (returncodes log) = [0%Z; 0%Z; 0%Z].
Proof.
  intros log. unfold log, trace.
  destruct (exec_dispatch_shape
              {| ns_ghc := g; ns_configure := c; ns_repl := r;
                 ns_project := None |} env)
    as [|pre s post rc Hss Hrc]; cbn [fst app].
  - intros _. split; reflexivity.
  - rewrite calls_app, calls_ok_events.
    change (plan {| ns_ghc := g; ns_configure := c; ns_repl := r;
                    ns_project := None |})
      with [build_nix_step "anapo" true;
            build_nix_step "anapo-test-app" true;
            build_nix_step "js-framework-benchmark" true;
            build_nix_step "anapo" false;
            build_nix_step "anapo-test-app" false;
            build_nix_step "js-framework-benchmark" false] in Hss.
    destruct pre as [|s1 [|s2 [|s3 pre]]].
    + injection Hss as <- _. simpl. intros [H|[]]. discriminate.
    + injection Hss as <- <- _. simpl. intros [H|[H|[]]]; discriminate.
    + injection Hss as <- <- <- _. simpl.
      intros [H|[H|[H|[]]]]; discriminate.
    + injection Hss as <- <- <- Hss. intros _. split.
      * reflexivity.
      * rewrite returncodes_prefix_zero by (simpl; lia). reflexivity.
Qed.

Lemma ghc_builds_follow_ghcjs_builds_witness :
  let log := trace (dispatch {| ns_ghc := false; ns_configure := false;
                                ns_repl := false; ns_project := None |})
                   (fails_at 4 1) in
  In (nix_build "anapo" false) (calls log) /\
  firstn 3 (returncodes log) = [0%Z; 0%Z; 0%Z].
Proof.
  intros log.
  assert (H : In (nix_build "anapo" false) (calls log))
    by (do 3 right; left; reflexivity).
  split; [exact H|].
  exact (proj2 (ghc_builds_follow_ghcjs_builds
                  false false false (fails_at 4 1) "anapo" H)).
Defined.

(** ** The whole script *)

Lemma stopped_has_failure pre s rc :
  In (CheckCall (command s) rc) (ok_events pre ++ step_events s rc).
Proof. apply in_or_app. right. right. left. reflexivity. Qed.

(** X7.  The exit status of the script is 0, 1 or 2.  It is 2 exactly when
    the command line is rejected, and then nothing was spawned or printed
    on standard output; it is 1 exactly when a child exited non-zero,
    whatever that child's own status was; otherwise it is 0. *)
Theorem script_exit_status
    (negative_number_matcher : string -> bool) (repr : string -> string)
    (format_usage format_help : string -> string)
    (prog : string) (argv : list string) (env : environment) :
  let script := main negative_number_matcher repr format_usage format_help prog argv in
  let status := exit_status (snd (exec script env)) in
  (status = 0 \/ status = 1 \/ status = 2)%Z /\
  (status = 2%Z <->
   exists e, parse_args negative_number_matcher argv = Error e) /\
  (status = 2%Z ->
   calls (trace script env) = [] /\ printed (trace script env) = []) /\
  (status = 1%Z <->
   exists call returncode,
     In (CheckCall call returncode) (trace script env) /\
     returncode <> 0%Z).
Proof.
  intros script status. subst status script. unfold main, trace.
  destruct (parse_args negative_number_matcher argv) as [args| |e].
  - destruct (exec_dispatch_shape args env) as [|pre s post rc Hss Hrc];
      cbn [fst snd app exit_status].
    + split; [auto|]. split; [split; [discriminate | intros [e He]; discriminate]|].
      split; [discriminate|]. split; [discriminate|].
      intros [call [rc [Hin Hne]]]. exfalso. apply Hne.
      apply (ok_events_no_failure _ _ _ Hin).
    + split; [auto|]. split; [split; [discriminate | intros [e He]; discriminate]|].
      split; [discriminate|]. split; [|reflexivity].
      intros _. exists (command s), rc. split; [apply stopped_has_failure | exact Hrc].
  - cbn. split; [auto|].
    split; [split; [discriminate | intros [e He]; discriminate]|].
    split; [discriminate|]. split; [discriminate|].
    intros [call [rc [[H|[]] _]]]. discriminate.
  - cbn. split; [auto|]. split; [split; [eauto | reflexivity]|].
    split; [auto|]. split; [discriminate|].
    intros [call [rc [[H|[H|[]]] _]]]; discriminate.
Qed.

Lemma script_exit_status_witness :
  let script := main ascii_negative_number quoted one_line_usage short_help "build.py" ["anapo"; "x"] in
  exit_status (snd (exec script (always 0))) = 2%Z /\
  calls (trace script (always 0)) = [] /\
  exit_status
    (snd (exec (main ascii_negative_number quoted one_line_usage short_help "build.py" ["anapo"])
               (always 77))) = 1%Z.
Proof.
  intros script.
  destruct (script_exit_status ascii_negative_number quoted one_line_usage short_help "build.py"
              ["anapo"; "x"] (always 0)) as [_ [[_ H2] [Hq _]]].
  destruct (script_exit_status ascii_negative_number quoted one_line_usage short_help "build.py"
              ["anapo"] (always 77)) as [_ [_ [_ [_ H1]]]].
  assert (E : exit_status (snd (exec script (always 0))) = 2%Z).
  { apply H2. eexists. reflexivity. }
  split; [exact E|]. split; [exact (proj1 (Hq E))|].
  apply H1. eexists _, 77%Z. split; [right; left; reflexivity | discriminate].
Defined.

(** X8.  The project name is not checked against the known projects: any
    argument that does not start with [-] is taken as the project as it is,
    alone or next to a flag on either side, and the script then configures
    and builds it. *)
Theorem project_name_is_not_checked
    (negative_number_matcher : string -> bool) (repr : string -> string)
    (format_usage format_help : string -> string)
    (prog : string) (c : ascii) (rest : string) (env : environment) :
  c <> "-"%char ->
  let project := String c rest in
  let parsed ghc configure repl :=
    Parsed {| ns_ghc := ghc; ns_configure := configure; ns_repl := repl;
              ns_project := Some project |} in
  parse_args negative_number_matcher [project] = parsed false false false /\
  parse_args negative_number_matcher ["--ghc"; project]
    = parsed true false false /\
  parse_args negative_number_matcher [project; "--ghc"]
    = parsed true false false /\
  parse_args negative_number_matcher ["--configure"; project]
    = parsed false true false /\
  parse_args negative_number_matcher [project; "--repl"]
    = parsed false false true /\
  exec (main negative_number_matcher repr format_usage format_help prog [project]) env
    = exec (configure project true ;; build project true) env.
Proof.
  intros Hc project parsed. apply Ascii.eqb_neq in Hc.
  assert (Hopt : parse_optional negative_number_matcher project = NotOptional).
  { unfold project. cbn [parse_optional]. rewrite Hc. reflexivity. }
  assert (Hdd : (project =? "--") = false).
  { unfold project. simpl. rewrite Hc. reflexivity. }
  assert (H1 : parse_args negative_number_matcher [project]
               = parsed false false false).
  { unfold parse_args, parse_known_args. cbn [arg_strings_pattern].
    rewrite Hdd, Hopt. reflexivity. }
  split; [exact H1|].
  repeat split;
    try (unfold parse_args, parse_known_args;
         cbn [arg_strings_pattern String.eqb Ascii.eqb Bool.eqb andb];
         rewrite ?Hdd, ?Hopt; reflexivity).
  unfold main. rewrite H1. unfold parsed, exec, dispatch, project. reflexivity.
Qed.

Lemma project_name_is_not_checked_witness :
  ("n" <> "-")%char /\
  parse_args ascii_negative_number ["no-such-project"; "--ghc"]
  = Parsed {| ns_ghc := true; ns_configure := false; ns_repl := false;
              ns_project := Some "no-such-project" |}.
Proof.
  split; [discriminate|].
  exact (proj1 (proj2 (proj2
           (project_name_is_not_checked ascii_negative_number quoted one_line_usage short_help
              "build.py" "n" "o-such-project" (always 0)
              ltac:(discriminate))))).
Defined.

(** ** What the parsed namespace says about the command line *)

Lemma take_action_help st : exists st' x, take_action help st = (st', Some x).
Proof. eexists _, _. reflexivity. Qed.

Lemma take_action_frame a st st' :
  take_action a st = (st', None) ->
  a <> help /\
  seen_actions st' = a :: seen_actions st /\
  namespace st' = set_flag a (namespace st) /\
  positionals st' = positionals st /\
  extras st' = extras st.
Proof.
  unfold take_action. destruct (find _ _); [discriminate|].
  destruct a; intros H; inversion H; cbn; repeat split; discriminate.
Qed.

Lemma flag_set_flag a b ns :
  a <> help ->
  flag b (set_flag a ns) = true <-> (b = a \/ flag b ns = true).
Proof.
  intros Ha. destruct a, b; cbn; try contradiction;
    split; intros H; auto;
    try (destruct H as [H|H]; [discriminate | exact H]);
    try (destruct H as [H|H]; [reflexivity | exact H]).
Qed.

Lemma ns_project_set_flag a ns : ns_project (set_flag a ns) = ns_project ns.
Proof. destruct a; reflexivity. Qed.

Lemma take_action_flags a st st' :
  take_action a st = (st', None) -> flags_inv st -> flags_inv st'.
Proof.
  intros H Hinv b. apply take_action_frame in H.
  destruct H as [Ha [Hs [Hn _]]]. rewrite Hs, Hn, (flag_set_flag _ _ _ Ha).
  rewrite (Hinv b). split.
  - intros [->|[Hb Hin]]; [split; [exact Ha | left; reflexivity]|].
    split; [exact Hb | right; exact Hin].
  - intros [Hb [<-|Hin]]; [left; reflexivity | right; auto].
Qed.

Lemma take_actions_frame l : forall st st',
  take_actions l st = (st', None) ->
  ~ In help l /\
  (forall b, In b (seen_actions st') <-> In b l \/ In b (seen_actions st)) /\
  (flags_inv st -> flags_inv st') /\
  ns_project (namespace st') = ns_project (namespace st) /\
  positionals st' = positionals st /\
  extras st' = extras st.
Proof.
  induction l as [|a l IH]; simpl; intros st st' H.
  - injection H as <-. split; [intros []|].
    split; [intros b; simpl; tauto|]. auto.
  - destruct (take_action a st) as [st1 [x|]] eqn:E; [discriminate|].
    pose proof (take_action_flags _ _ _ E) as Hf.
    apply take_action_frame in E.
    destruct E as [Ha [Hs [Hn [Hp He]]]].
    destruct (IH _ _ H) as [Hnh [Hseen [Hfl [Hpr [Hpo Hex]]]]].
    split; [intros [Hh|Hh]; [congruence | auto]|].
    split.
    { intros b. rewrite Hseen, Hs. simpl. tauto. }
    split; [auto|].
    rewrite Hpr, Hn, ns_project_set_flag, Hpo, Hp, Hex, He. auto.
Qed.

Lemma short_cluster_help e : forall a more,
  short_cluster a e = inr more -> e <> "" -> In help more.
Proof.
  induction e as [|c e IH]; intros a more H Hne; [contradiction|].
  simpl in H.
  destruct (lookup_option (String "-" (String c EmptyString))) as [a'|] eqn:El;
    [|discriminate].
  destruct (short_cluster a' e) as [err|l]; [discriminate|].
  injection H as <-. left.
  destruct c as [[] [] [] [] [] [] [] []]; cbv in El;
    first [discriminate | congruence].
Qed.

(** One option that does not stop the parser: it had no explicit argument
    and its action is now seen. *)
Lemma consume_optional_frame s a os e st st' :
  consume_optional s a os e st = (st', None) ->
  (forall b, In b (seen_actions st') <->
             a = Some b \/ In b (seen_actions st)) /\
  (flags_inv st -> flags_inv st') /\
  ns_project (namespace st') = ns_project (namespace st) /\
  positionals st' = positionals st /\
  (forall p, In p (extras st) -> In p (extras st')).
Proof.
  unfold consume_optional. destruct a as [a|].
  - assert (Hone : forall l, take_actions (a :: l) st = (st', None) ->
                             l = [] ->
              (forall b, In b (seen_actions st') <->
                         Some a = Some b \/ In b (seen_actions st)) /\
              (flags_inv st -> flags_inv st') /\
              ns_project (namespace st') = ns_project (namespace st) /\
              positionals st' = positionals st /\
              (forall p, In p (extras st) -> In p (extras st'))).
    { intros l H ->. apply take_actions_frame in H.
      destruct H as [_ [Hseen [Hfl [Hpr [Hpo Hex]]]]].
      split.
      - intros b. rewrite Hseen. simpl. split.
        + intros [[<-|[]]|H]; auto.
        + intros [[= <-]|H]; auto.
      - rewrite Hex. auto. }
    destruct e as [e|].
    + destruct (single_dash os && negb (e =? "")) eqn:Ec; [|discriminate].
      destruct (short_cluster a e) as [err|more] eqn:Es; [discriminate|].
      intros H. exfalso.
      apply take_actions_frame in H. destruct H as [Hnh _].
      apply Hnh. right. apply (short_cluster_help e a more Es).
      intros ->. apply andb_prop in Ec. destruct Ec as [_ Ec].
      discriminate.
    + intros H. apply (Hone []); [|reflexivity].
      simpl. destruct (take_action a st) as [st1 [x|]]; [discriminate|].
      exact H.
  - intros H. injection H as <-. cbn. split.
    + intros b. split; [auto | intros [H|H]; [discriminate | exact H]].
    + split; [auto|]. split; [reflexivity|]. split; [reflexivity|].
      intros p Hp. apply in_or_app. left. exact Hp.
Qed.

Lemma consume_positional_frame s st :
  seen_actions (consume_positional s st) = seen_actions st /\
  (flags_inv st -> flags_inv (consume_positional s st)).
Proof.
  unfold consume_positional, flags_inv.
  destruct (positionals st); cbn; split; auto;
    intros H a; rewrite <- (H a); destruct a; reflexivity.
Qed.

Lemma consume_flags entries : forall taken st st',
  consume taken entries st = (st', None) ->
  (forall b, In b (seen_actions st') <->
             (exists s os e, In (O s (Some b) os e) entries)
             \/ In b (seen_actions st)) /\
  (flags_inv st -> flags_inv st').
Proof.
  induction entries as [|[s| |s a os e] entries IH]; simpl;
    intros taken st st' H.
  - injection H as <-. split; [|auto].
    intros b. split; [auto | intros [[? [? [? []]]]|Hb]; exact Hb].
  - destruct (IH _ _ _ H) as [Hseen Hfl].
    destruct (consume_positional_frame s st) as [Hs Hf].
    split; [|auto]. intros b. rewrite Hseen, Hs. split.
    + intros [[s' [os [e Hin]]]|Hb]; [left; eauto 6 | auto].
    + intros [[s' [os [e [Hq|Hin]]]]|Hb]; [discriminate | left; eauto | auto].
  - assert (Hboth :
        (forall b, In b (seen_actions st') <->
                   (exists s os e, In (O s (Some b) os e) entries)
                   \/ In b (seen_actions st)) /\
        (flags_inv st -> flags_inv st')).
    { destruct (positionals st || taken); apply (IH _ _ _ H). }
    destruct Hboth as [Hseen Hfl]. split; [|auto].
    intros b. rewrite Hseen. split.
    + intros [[s' [os [e Hin]]]|Hb]; [left; eauto 6 | auto].
    + intros [[s' [os [e [Hq|Hin]]]]|Hb]; [discriminate | left; eauto | auto].
  - destruct (consume_optional s a os e st) as [st1 [x|]] eqn:E;
      [discriminate|].
    apply consume_optional_frame in E.
    destruct E as [Hs1 [Hf1 _]].
    destruct (IH _ _ _ H) as [Hseen Hfl]. split; [|auto].
    intros b. rewrite Hseen, Hs1. split.
    + intros [[s' [os' [e' Hin]]]|[->|Hb]]; [left; eauto 6 | | auto].
      left. exists s, os, e. left. reflexivity.
    + intros [[s' [os' [e' [Hq|Hin]]]]|Hb]; [| left; eauto | auto].
      injection Hq as -> -> -> ->. auto.
Qed.

Lemma pattern_arguments_map rest : pattern_arguments (map A rest) = rest.
Proof. induction rest as [|x rest IH]; simpl; [reflexivity | rewrite IH; reflexivity]. Qed.

Lemma no_option_after_dashdash rest s a os e : ~ In (O s a os e) (map A rest).
Proof. intros H. apply in_map_iff in H. destruct H as [x [H _]]. discriminate. Qed.

(** The options of the pattern are the options of the command line. *)
Lemma pattern_options m argv : forall entries s a os e,
  arg_strings_pattern m argv = inr entries ->
  In (O s a os e) entries ->
  In s (options_part argv) /\ parse_optional m s = OptionTuple a os e.
Proof.
  induction argv as [|x rest IH]; simpl; intros entries s a os e Hp Hin.
  - injection Hp as <-. destruct Hin.
  - destruct (x =? "--").
    + injection Hp as <-. destruct Hin as [Hin|Hin]; [discriminate|].
      exfalso. apply (no_option_after_dashdash _ _ _ _ _ Hin).
    + destruct (parse_optional m x) as [|a' os' e'|ms] eqn:Ex;
        [| |discriminate].
      * destruct (arg_strings_pattern m rest) as [err|p]; [discriminate|].
        injection Hp as <-. destruct Hin as [Hin|Hin]; [discriminate|].
        destruct (IH _ _ _ _ _ eq_refl Hin) as [H1 H2].
        split; [right; exact H1 | exact H2].
      * destruct (arg_strings_pattern m rest) as [err|p]; [discriminate|].
        injection Hp as <-. destruct Hin as [Hin|Hin].
        -- injection Hin as <- <- <- <-. split; [left; reflexivity | exact Ex].
        -- destruct (IH _ _ _ _ _ eq_refl Hin) as [H1 H2].
           split; [right; exact H1 | exact H2].
Qed.

Lemma pattern_positionals m argv : forall entries,
  arg_strings_pattern m argv = inr entries ->
  pattern_arguments entries = positional_args m argv.
Proof.
  induction argv as [|x rest IH]; simpl; intros entries Hp.
  - injection Hp as <-. reflexivity.
  - destruct (x =? "--").
    + injection Hp as <-. apply pattern_arguments_map.
    + destruct (parse_optional m x) as [|a' os' e'|ms];
        [| |discriminate].
      * destruct (arg_strings_pattern m rest) as [err|p]; [discriminate|].
        injection Hp as <-. simpl. rewrite (IH _ eq_refl). reflexivity.
      * destruct (arg_strings_pattern m rest) as [err|p]; [discriminate|].
        injection Hp as <-. simpl. apply (IH _ eq_refl).
Qed.

(** An accepted command line, flag by flag. *)
Lemma accepted_command_line
    (negative_number_matcher : string -> bool)
    (argv : list string) (args : Namespace) :
  parse_args negative_number_matcher argv = Parsed args ->
  (ns_ghc args = true <-> gives negative_number_matcher store_ghc argv) /\
  (ns_configure args = true
   <-> gives negative_number_matcher store_configure argv) /\
  (ns_repl args = true <-> gives negative_number_matcher store_repl argv) /\
  ~ gives negative_number_matcher help argv.
Proof.
  unfold parse_args, parse_known_args. intros H.
  pose proof (pattern_keeps_options negative_number_matcher argv) as Hkeep.
  pose proof (pattern_options negative_number_matcher argv) as Hopt.
  destruct (arg_strings_pattern negative_number_matcher argv)
    as [err|entries]; [discriminate|].
  specialize (Hkeep entries). specialize (Hopt entries).
  destruct (consume false entries initial_state) as [st [x|]] eqn:Ec;
    [destruct x; discriminate|].
  destruct (extras st); [|discriminate]. injection H as <-.
  destruct (consume_flags _ _ _ _ Ec) as [Hseen Hfl].
  assert (Hinv : flags_inv st).
  { apply Hfl. intros a. cbn. destruct a; cbn; split;
      try discriminate; intros [_ []]. }
  assert (Hg : forall a,
             In a (seen_actions st) <-> gives negative_number_matcher a argv).
  { intros a. rewrite Hseen. cbn. split.
    - intros [[s [os [e Hin]]]|[]].
      destruct (Hopt _ _ _ _ eq_refl Hin) as [H1 H2].
      exists s, os, e. auto.
    - intros [s [os [e [H1 H2]]]]. left. exists s, os, e.
      apply Hkeep; auto. }
  assert (Hflag : forall a, a <> help ->
             (flag a (namespace st) = true
              <-> gives negative_number_matcher a argv)).
  { intros a Ha. rewrite (Hinv a), Hg. tauto. }
  split; [apply (Hflag store_ghc); discriminate|].
  split; [apply (Hflag store_configure); discriminate|].
  split; [apply (Hflag store_repl); discriminate|].
  intros Hh. apply Hg in Hh.
  assert (Hno : forall entries taken st st',
             consume taken entries st = (st', None) ->
             ~ In help (seen_actions st) -> ~ In help (seen_actions st')).
  { clear. induction entries as [|[s| |s a os e] entries IH]; simpl;
      intros taken st st' H Hn.
    - injection H as <-. exact Hn.
    - apply (IH _ _ _ H).
      rewrite (proj1 (consume_positional_frame s st)). exact Hn.
    - destruct (positionals st || taken); apply (IH _ _ _ H Hn).
    - destruct (consume_optional s a os e st) as [st1 [x|]] eqn:E;
        [discriminate|].
      apply (IH _ _ _ H). intros Hin.
      unfold consume_optional in E. destruct a as [a|].
      + destruct e as [e|].
        * destruct (single_dash os && negb (e =? "")); [|discriminate].
          destruct (short_cluster a e); [discriminate|].
          apply take_actions_frame in E.
          destruct E as [Hnh [Hs _]]. apply Hs in Hin.
          destruct Hin as [Hin|Hin]; auto.
        * apply take_action_frame in E. destruct E as [Ha [Hs _]].
          rewrite Hs in Hin. destruct Hin as [Hin|Hin]; auto.
      + injection E as <-. auto. }
  apply (Hno _ _ _ _ Ec); [intros [] | exact Hh].
Qed.


(** X9.  When the command line is accepted, each flag of the namespace is
    true exactly when the command line gives its option, in full or
    abbreviated, in front of any [--]; in particular a flag that is not
    given keeps its default, false.  No accepted command line asks for
    help. *)
Theorem flags_reflect_the_command_line
    (negative_number_matcher : string -> bool)
    (argv : list string) (args : Namespace) :
  parse_args negative_number_matcher argv = Parsed args ->
  (ns_ghc args = true <-> gives negative_number_matcher store_ghc argv) /\
  (ns_configure args = true
   <-> gives negative_number_matcher store_configure argv) /\
  (ns_repl args = true <-> gives negative_number_matcher store_repl argv) /\
  ~ gives negative_number_matcher help argv.
Proof. apply accepted_command_line. Qed.

Lemma flags_reflect_the_command_line_witness :
  parse_args ascii_negative_number ["--gh"; "anapo"; "--"; "--repl"]
  = Error (UnrecognizedArguments ["--repl"]) /\
  parse_args ascii_negative_number ["--gh"; "anapo"; "--"]
  = Parsed {| ns_ghc := true; ns_configure := false; ns_repl := false;
              ns_project := Some "anapo" |} /\
  gives ascii_negative_number store_ghc ["--gh"; "anapo"; "--"] /\
  ~ gives ascii_negative_number store_repl ["--gh"; "anapo"; "--"].
Proof.
  assert (H : parse_args ascii_negative_number ["--gh"; "anapo"; "--"]
              = Parsed {| ns_ghc := true; ns_configure := false;
                          ns_repl := false; ns_project := Some "anapo" |})
    by reflexivity.
  destruct (flags_reflect_the_command_line _ _ _ H) as [Hg [_ [Hr _]]].
  split; [reflexivity|]. split; [exact H|]. split.
  - apply Hg. reflexivity.
  - intros Hgive. apply Hr in Hgive. discriminate.
Defined.

Lemma consume_positional_inv_positionals s P st :
  positionals_inv P st ->
  positionals_inv (P ++ [s])%list (consume_positional s st).
Proof.
  intros [Hp [Hpos Hex]]. unfold consume_positional. rewrite Hpos.
  destruct P as [|p P]; cbn.
  - split; [exact eq_refl|]. split; [exact eq_refl|]. intros q [].
  - split; [exact Hp|]. split; [exact eq_refl|].
    intros q Hq. apply in_app_or in Hq. apply in_or_app.
    destruct Hq as [Hq|Hq]; [left; apply Hex, Hq | right; exact Hq].
Qed.

Lemma consume_positionals_inv entries : forall taken P st st',
  consume taken entries st = (st', None) ->
  positionals_inv P st ->
  positionals_inv (P ++ pattern_arguments entries)%list st'.
Proof.
  induction entries as [|[s| |s a os e] entries IH]; simpl;
    intros taken P st st' H Hinv.
  - injection H as <-. rewrite app_nil_r. exact Hinv.
  - change (s :: pattern_arguments entries)
      with ([s] ++ pattern_arguments entries)%list.
    rewrite app_assoc. apply (IH _ _ _ _ H).
    apply consume_positional_inv_positionals, Hinv.
  - destruct (positionals st || taken); [apply (IH _ _ _ _ H Hinv)|].
    apply (IH _ _ _ _ H). destruct Hinv as [H1 [H2 H3]].
    split; [exact H1|]. split; [exact H2|].
    intros p Hp. cbn. apply in_or_app. left. apply H3, Hp.
  - destruct (consume_optional s a os e st) as [st1 [x|]] eqn:E;
      [discriminate|].
    apply (IH _ _ _ _ H). apply consume_optional_frame in E.
    destruct E as [_ [_ [Hpr [Hpo Hex]]]].
    destruct Hinv as [H1 [H2 H3]]. unfold positionals_inv.
    rewrite Hpr, Hpo. auto.
Qed.

(** X10.  [PROJECT] is the one positional of the command line.  When the
    command line is accepted it has at most one positional argument, and
    [args.project] is that argument, or [None] when there is none; a
    command line with two or more positionals spawns nothing. *)
Theorem project_is_the_only_positional
    (negative_number_matcher : string -> bool) (repr : string -> string)
    (format_usage format_help : string -> string)
    (prog : string) (argv : list string) (env : environment) :
  (forall args,
     parse_args negative_number_matcher argv = Parsed args ->
     ns_project args = hd_error (positional_args negative_number_matcher argv)
     /\ List.length (positional_args negative_number_matcher argv) <= 1) /\
  (2 <= List.length (positional_args negative_number_matcher argv) ->
   calls (trace (main negative_number_matcher repr format_usage format_help prog argv) env) = []).
Proof.
  assert (Hmain : forall args,
            parse_args negative_number_matcher argv = Parsed args ->
            ns_project args
              = hd_error (positional_args negative_number_matcher argv) /\
            List.length (positional_args negative_number_matcher argv) <= 1).
  { unfold parse_args, parse_known_args. intros args H.
    pose proof (pattern_positionals negative_number_matcher argv) as Hpos.
    destruct (arg_strings_pattern negative_number_matcher argv)
      as [err|entries]; [discriminate|].
    rewrite <- (Hpos entries eq_refl).
    destruct (consume false entries initial_state) as [st [x|]] eqn:Ec;
      [destruct x; discriminate|].
    destruct (extras st) eqn:Ee; [|discriminate]. injection H as <-.
    assert (Hinit : positionals_inv [] initial_state).
    { repeat split. intros p []. }
    destruct (consume_positionals_inv _ _ _ _ _ Ec Hinit) as [Hp [_ Hex]].
    simpl in Hp, Hex. split; [exact Hp|].
    destruct (pattern_arguments entries) as [|p [|q l]]; simpl; try lia.
    exfalso. rewrite Ee in Hex. apply (Hex q). left. reflexivity. }
  split; [exact Hmain|].
  intros Hlen. unfold main, trace.
  destruct (parse_args negative_number_matcher argv) as [args| |e] eqn:E;
    [|reflexivity|reflexivity].
  destruct (Hmain args eq_refl) as [_ H]. lia.
Qed.

Lemma project_is_the_only_positional_witness :
  parse_args ascii_negative_number ["--repl"; "--"; "-x"]
  = Parsed {| ns_ghc := false; ns_configure := false; ns_repl := true;
              ns_project := Some "-x" |} /\
  positional_args ascii_negative_number ["--repl"; "--"; "-x"] = ["-x"] /\
  2 <= List.length
         (positional_args ascii_negative_number ["anapo"; "--ghc"; "-1"]) /\
  calls (trace (main ascii_negative_number quoted one_line_usage short_help "build.py"
                     ["anapo"; "--ghc"; "-1"]) (always 0)) = [].
Proof.
  assert (H : parse_args ascii_negative_number ["--repl"; "--"; "-x"]
              = Parsed {| ns_ghc := false; ns_configure := false;
                          ns_repl := true; ns_project := Some "-x" |})
    by reflexivity.
  assert (H2 : 2 <= List.length
                      (positional_args ascii_negative_number
                                       ["anapo"; "--ghc"; "-1"]))
    by (simpl; lia).
  destruct (project_is_the_only_positional ascii_negative_number quoted one_line_usage short_help
              "build.py" ["--repl"; "--"; "-x"] (always 0)) as [Hp _].
  destruct (Hp _ H) as [_ _].
  split; [exact H|]. split; [reflexivity|]. split; [exact H2|].
  exact (proj2 (project_is_the_only_positional ascii_negative_number quoted one_line_usage short_help
                  "build.py" ["anapo"; "--ghc"; "-1"] (always 0)) H2).
Defined.

(** X11.  Asking for help never starts a build: a command line that gives
    [-h] or [--help] in front of any [--] is not accepted, so the script
    spawns no child and leaves through [SystemExit], with status 0 when the
    help is printed and status 2 when an error comes first. *)
Theorem help_spawns_nothing
    (negative_number_matcher : string -> bool) (repr : string -> string)
    (format_usage format_help : string -> string)
    (prog : string) (argv : list string) (env : environment) :
  gives negative_number_matcher help argv ->
  let script := main negative_number_matcher repr format_usage format_help prog argv in
  calls (trace script env) = [] /\
  (snd (exec script env) = inl (SystemExit 0) \/
   snd (exec script env) = inl (SystemExit 2)).
Proof.
  intros Hh script. subst script. unfold main, trace.
  destruct (parse_args negative_number_matcher argv) as [args| |e] eqn:E.
  - exfalso.
    destruct (accepted_command_line _ _ _ E) as [_ [_ [_ Hn]]]. auto.
  - split; [reflexivity | left; reflexivity].
  - split; [reflexivity | right; reflexivity].
Qed.

Lemma help_spawns_nothing_witness :
  gives ascii_negative_number help ["anapo"; "--he"] /\
  exec (main ascii_negative_number quoted one_line_usage short_help "build.py" ["anapo"; "--he"])
       (always 0)
  = ([Write stdout (short_help "build.py")], inl (SystemExit 0)) /\
  calls (trace (main ascii_negative_number quoted one_line_usage short_help "build.py"
                     ["anapo"; "--he"]) (always 0)) = [].
Proof.
  assert (H : gives ascii_negative_number help ["anapo"; "--he"]).
  { exists "--he", "--help", None. simpl. auto. }
  split; [exact H|]. split; [reflexivity|].
  exact (proj1 (help_spawns_nothing ascii_negative_number quoted one_line_usage short_help "build.py"
                  ["anapo"; "--he"] (always 0) H)).
Defined.

(** X12.  The only programs the script ever spawns are [nix-shell] and
    [nix-build], always on [build.nix] with [-A]: [nix-shell] for a single
    project, [nix-build] only when no project is named. *)
Theorem only_nix_is_spawned
    (args : Namespace) (env : environment) (call : list string) :
  In call (calls (trace (dispatch args) env)) ->
  program call
    = Some (if truthy (ns_project args) then "nix-shell" else "nix-build") /\
  nth_error call 1 = Some "build.nix" /\
  nth_error call 2 = Some "-A".
Proof.
  intros H. apply calls_in_plan in H.
  apply in_map_iff in H. destruct H as [s [<- Hs]].
  destruct args as [g c r [p|]]; unfold plan in Hs;
    cbn [ns_project ns_configure ns_repl ns_ghc truthy] in *.
  - destruct (p =? ""); cbn [negb].
    + simpl in Hs.
      repeat (destruct Hs as [<-|Hs]; [repeat split|]); destruct Hs.
    + destruct c; [|destruct r]; simpl in Hs;
        repeat (destruct Hs as [<-|Hs]; [repeat split|]); destruct Hs.
  - simpl in Hs.
    repeat (destruct Hs as [<-|Hs]; [repeat split|]); destruct Hs.
Qed.

Lemma only_nix_is_spawned_witness :
  let args := {| ns_ghc := false; ns_configure := false; ns_repl := false;
                 ns_project := Some "" |} in
  let call :=
    ["nix-build"; "build.nix"; "-A"; "anapo"; "--arg"; "ghcjs"; "true"] in
  In call (calls (trace (dispatch args) (always 9))) /\
  program call = Some "nix-build".
Proof.
  intros args call.
  assert (H : In call (calls (trace (dispatch args) (always 9))))
    by (left; reflexivity).
  split; [exact H|].
  exact (proj1 (only_nix_is_spawned args (always 9) call H)).
Defined.
